(** * Contact directory (task.py): a shallow embedding and its properties

    The Python program keeps an address book of contact records with
    validated phone numbers and birthdays.  The embedding follows the source
    class by class.  Python strings are sequences of Unicode code points,
    exceptions are an explicit result type, and methods that mutate [self]
    are state transformers that return the state reached together with the
    outcome, so that "unchanged on failure" is something to prove. *)

From stdpp Require Import list strings relations.
From Stdlib Require Import NArith Ascii Lia.

Local Open Scope N_scope.

(** ** Python runtime: strings, exceptions *)

Module Py.

(** A [str] is a sequence of code points. *)
Definition str : Type := list N.

(** ASCII literals. *)
Fixpoint lit (s : string) : str :=
  match s with
  | EmptyString => []
  | String a s' => Ascii.N_of_ascii a :: lit s'
  end.

(** The exception classes the program meets. *)
Inductive exn : Set := ValueError | IndexError | KeyError | OverflowError.

Inductive result (A : Type) : Type :=
  | Ok (a : A)
  | Raise (e : exn).
Arguments Ok {A} a.
Arguments Raise {A} e.

(** Sequencing: an exception raised by the first step ends the whole. *)
Global Instance result_bind : MBind result := λ A B k r,
  match r with
  | Ok a => k a
  | Raise e => Raise e
  end.

(** [sep.join(parts)] *)
Fixpoint join (sep : str) (parts : list str) : str :=
  match parts with
  | [] => []
  | [p] => p
  | p :: ps => p ++ sep ++ join sep ps
  end.

(** Code points with Unicode property Numeric_Type=Decimal (category Nd),
    Unicode 14.0.  Every range starts at a digit zero and runs through
    whole decades, so the value of [c] in a range starting at [lo] is
    [(c - lo) mod 10]. *)
Definition decimal_ranges : list (N * N) :=
  [(48, 57); (1632, 1641); (1776, 1785); (1984, 1993); (2406, 2415);
   (2534, 2543); (2662, 2671); (2790, 2799); (2918, 2927); (3046, 3055);
   (3174, 3183); (3302, 3311); (3430, 3439); (3558, 3567); (3664, 3673);
   (3792, 3801); (3872, 3881); (4160, 4169); (4240, 4249); (6112, 6121);
   (6160, 6169); (6470, 6479); (6608, 6617); (6784, 6793); (6800, 6809);
   (6992, 7001); (7088, 7097); (7232, 7241); (7248, 7257); (42528, 42537);
   (43216, 43225); (43264, 43273); (43472, 43481); (43504, 43513);
   (43600, 43609); (44016, 44025); (65296, 65305); (66720, 66729);
   (68912, 68921); (69734, 69743); (69872, 69881); (69942, 69951);
   (70096, 70105); (70384, 70393); (70736, 70745); (70864, 70873);
   (71248, 71257); (71360, 71369); (71472, 71481); (71904, 71913);
   (72016, 72025); (72784, 72793); (73040, 73049); (73120, 73129);
   (92768, 92777); (92864, 92873); (93008, 93017); (120782, 120831);
   (123200, 123209); (123632, 123641); (125264, 125273); (130032, 130041)].

(** Code points with Numeric_Type=Digit that are not decimal: superscripts,
    subscripts, circled and parenthesised digits and the like. *)
Definition other_digit_ranges : list (N * N) :=
  [(178, 179); (185, 185); (4969, 4977); (6618, 6618); (8304, 8304);
   (8308, 8313); (8320, 8329); (9312, 9320); (9332, 9340); (9352, 9360);
   (9450, 9450); (9461, 9469); (9471, 9471); (10102, 10110); (10112, 10120);
   (10122, 10130); (68160, 68163); (69216, 69224); (69714, 69722);
   (127232, 127242)].

Definition in_range (c : N) (r : N * N) : bool :=
  (fst r <=? c) && (c <=? snd r).

Definition in_ranges (c : N) (rs : list (N * N)) : bool :=
  existsb (in_range c) rs.

(** One-character [str.isdecimal()] and [str.isdigit()]. *)
Definition isdecimal_cp (c : N) : bool := in_ranges c decimal_ranges.

Definition isdigit_cp (c : N) : bool :=
  isdecimal_cp c || in_ranges c other_digit_ranges.

(** [s.isdigit()]: every character is a digit and there is at least one. *)
Definition isdigit (s : str) : bool :=
  match s with
  | [] => false
  | _ => forallb isdigit_cp s
  end.

(** The decimal value of a code point, where it has one. *)
Definition decimal_value (c : N) : option N :=
  match List.find (in_range c) decimal_ranges with
  | Some r => Some ((c - fst r) mod 10)
  | None => None
  end.

Fixpoint int_digits (acc : N) (s : str) : result N :=
  match s with
  | [] => Ok acc
  | c :: s' =>
      match decimal_value c with
      | Some v => int_digits (10 * acc + v) s'
      | None => Raise ValueError
      end
  end.

(** [int(s)] on the texts this program passes to it: optional leading
    spaces followed by decimal digits (of any script). *)
Fixpoint int (s : str) : result N :=
  match s with
  | [] => Raise ValueError
  | 32 :: s' => int s'
  | _ => int_digits 0 s
  end.

End Py.

Import Py.

(** ** datetime.date *)

Module Date.

Record date : Set := mk { year : N; month : N; day : N }.

Global Instance date_eq_dec : EqDecision date.
Proof. solve_decision. Defined.

Definition is_leap (y : N) : bool :=
  (y mod 4 =? 0) && (negb (y mod 100 =? 0) || (y mod 400 =? 0)).

Definition days_in_month (y m : N) : N :=
  if (m =? 2) && is_leap y then 29
  else nth (N.to_nat m) [0; 31; 28; 31; 30; 31; 30; 31; 31; 30; 31; 30; 31] 0.

(** The constructor's range checks ([_check_date_fields]). *)
Definition check_date_fields (y m d : N) : bool :=
  (1 <=? y) && (y <=? 9999) && (1 <=? m) && (m <=? 12)
  && (1 <=? d) && (d <=? days_in_month y m).

Definition new (y m d : N) : result date :=
  if check_date_fields y m d then Ok (mk y m d) else Raise ValueError.

(** [d.replace(year=y)] builds a new date and so validates it again. *)
Definition replace_year (d : date) (y : N) : result date :=
  new y (month d) (day d).

(** Comparison is that of the tuples (year, month, day). *)
Definition ltb (a b : date) : bool :=
  (year a <? year b)
  || ((year a =? year b)
      && ((month a <? month b)
          || ((month a =? month b) && (day a <? day b)))).

Definition leb (a b : date) : bool := negb (ltb b a).

(** The day after [d]; [date.max] is 9999-12-31. *)
Definition tomorrow (d : date) : result date :=
  if day d <? days_in_month (year d) (month d)
  then Ok (mk (year d) (month d) (day d + 1))
  else if month d <? 12 then Ok (mk (year d) (month d + 1) 1)
  else if year d <? 9999 then Ok (mk (year d + 1) 1 1)
  else Raise OverflowError.

(** [d + timedelta(days=n)] for [n >= 0]: the date [n] days later, or
    OverflowError past [date.max]. *)
Fixpoint add_days (d : date) (n : nat) : result date :=
  match n with
  | O => Ok d
  | S n' => d' ← tomorrow d; add_days d' n'
  end.

(** *** [strftime]

    [%d] and [%m] are two digits, zero padded.  [%Y] is handed to the C
    library: glibc writes the year without padding, other platforms (and
    later CPython releases) pad it to four digits.  [pad_year] says which. *)

Definition digit (n : N) : N := 48 + n mod 10.

Definition fmt2 (n : N) : str := [digit (n / 10); digit n].

Definition fmt4 (n : N) : str :=
  [digit (n / 1000); digit (n / 100); digit (n / 10); digit n].

Fixpoint strip_zeros (s : str) : str :=
  match s with
  | 48 :: r => match r with [] => s | _ => strip_zeros r end
  | _ => s
  end.

Definition fmt_Y (pad_year : bool) (y : N) : str :=
  if pad_year then fmt4 y else strip_zeros (fmt4 y).

(** [d.strftime("%d.%m.%Y")] *)
Definition strftime_dmy (pad_year : bool) (d : date) : str :=
  fmt2 (day d) ++ [46] ++ fmt2 (month d) ++ [46] ++ fmt_Y pad_year (year d).

(** [d.strftime("%Y.%m.%d")] *)
Definition strftime_ymd (pad_year : bool) (d : date) : str :=
  fmt_Y pad_year (year d) ++ [46] ++ fmt2 (month d) ++ [46] ++ fmt2 (day d).

(** [str(d)], which is [d.isoformat()]: "%04d-%02d-%02d". *)
Definition isoformat (d : date) : str :=
  fmt4 (year d) ++ [45] ++ fmt2 (month d) ++ [45] ++ fmt2 (day d).

(** *** [datetime.strptime(s, "%d.%m.%Y").date()]

    The format compiles to the regular expression

      (?P<d>3[0-1]|[1-2]\d|0[1-9]|[1-9]| [1-9])\.(?P<m>1[0-2]|0[1-9]|[1-9])\.(?P<Y>\d\d\d\d)

    matched at the start of the text; [\d] is any Unicode decimal digit.
    A matcher takes the text and a continuation for the rest of the
    pattern; alternatives are tried in order, the next one when the rest of
    the pattern fails after the previous one. *)

Definition between (lo hi c : N) : bool := (lo <=? c) && (c <=? hi).

Definition alt {A} (x y : option A) : option A :=
  match x with
  | Some _ => x
  | None => y
  end.

Definition one {A} (p : N → bool) (s : str) (k : str → str → option A)
  : option A :=
  match s with
  | c :: r => if p c then k [c] r else None
  | _ => None
  end.

Definition two {A} (p1 p2 : N → bool) (s : str) (k : str → str → option A)
  : option A :=
  match s with
  | c1 :: c2 :: r => if p1 c1 && p2 c2 then k [c1; c2] r else None
  | _ => None
  end.

Definition re_d {A} (s : str) (k : str → str → option A) : option A :=
  alt (two (between 51 51) (between 48 49) s k)
 (alt (two (between 49 50) isdecimal_cp s k)
 (alt (two (between 48 48) (between 49 57) s k)
 (alt (one (between 49 57) s k)
      (two (between 32 32) (between 49 57) s k)))).

Definition re_m {A} (s : str) (k : str → str → option A) : option A :=
  alt (two (between 49 49) (between 48 50) s k)
 (alt (two (between 48 48) (between 49 57) s k)
      (one (between 49 57) s k)).

Definition re_Y {A} (s : str) (k : str → str → option A) : option A :=
  match s with
  | a :: b :: c :: d :: r =>
      if isdecimal_cp a && isdecimal_cp b && isdecimal_cp c && isdecimal_cp d
      then k [a; b; c; d] r else None
  | _ => None
  end.

Definition re_dot {A} (s : str) (k : str → option A) : option A :=
  match s with
  | 46 :: r => k r
  | _ => None
  end.

(** The groups d, m, Y and the text left after the match. *)
Definition re_match (s : str) : option (str * str * str * str) :=
  re_d s (λ d r, re_dot r (λ r, re_m r (λ m r, re_dot r (λ r,
  re_Y r (λ y r, Some (d, m, y, r)))))).

Definition strptime_dmy (s : str) : result date :=
  match re_match s with
  | None => Raise ValueError            (* does not match format *)
  | Some (d, m, y, rest) =>
      match rest with
      | _ :: _ => Raise ValueError      (* unconverted data remains *)
      | [] =>
          year ← int y; month ← int m; day ← int d;
          new year month day
      end
  end.

End Date.

(** ** class Phone *)

Module Phone.

Record t : Type := mk { value : str }.

Definition validate (value : str) : bool :=
  isdigit value && bool_decide (length value = 10%nat).

Definition init (value : str) : result t :=
  if negb (validate value) then Raise ValueError else Ok (mk value).

End Phone.

(** ** class Birthday *)

Module Birthday.

Record t : Type := mk { value : Date.date }.

Definition init (value : str) : result t :=
  match Date.strptime_dmy value with
  | Ok d => Ok (mk d)
  | Raise ValueError => Raise ValueError
  | Raise e => Raise e
  end.

End Birthday.

(** ** class Record ([Record] being a keyword, the module is
    [ContactRecord]) *)

Module ContactRecord.

Record t : Type := mk {
  name : str;
  phones : list Phone.t;
  birthday : option Birthday.t
}.

Definition init (name : str) : t := mk name [] None.

(** A method body takes the state of [self] to the state it leaves and
    its outcome. *)
Definition method (A : Type) : Type := t → t * result A.

Definition add_phone (phone : str) : method unit := λ self,
  match Phone.init phone with
  | Ok p => (mk (name self) (phones self ++ [p]) (birthday self), Ok ())
  | Raise e => (self, Raise e)
  end.

(** The [for idx, phone in enumerate(self.phones)] loop, at index [idx]
    with [rest] still to visit. *)
Fixpoint change_phone_from (idx : nat) (rest : list Phone.t)
    (old_phone new_phone : str) : method unit := λ self,
  match rest with
  | [] => (self, Raise KeyError)
  | phone :: rest' =>
      if decide (Phone.value phone = old_phone) then
        match Phone.init new_phone with
        | Ok p =>
            (mk (name self) (<[idx := p]> (phones self)) (birthday self),
             Ok ())
        | Raise e => (self, Raise e)
        end
      else change_phone_from (S idx) rest' old_phone new_phone self
  end.

Definition change_phone (old_phone new_phone : str) : method unit :=
  λ self, change_phone_from 0 (phones self) old_phone new_phone self.

Definition add_birthday (birthday : str) : method unit := λ self,
  match Birthday.init birthday with
  | Ok b => (mk (name self) (phones self) (Some b), Ok ())
  | Raise e => (self, Raise e)
  end.

(** [__str__] *)
Definition to_str (self : t) : str :=
  lit "Record(name=" ++ name self
  ++ lit ", phones=" ++ join (lit ", ") (map Phone.value (phones self))
  ++ lit ", birthday="
  ++ match birthday self with
     | Some b => Date.isoformat (Birthday.value b)
     | None => lit "N/A"
     end
  ++ lit ")".

End ContactRecord.

(** ** class AddressBook *)

Module AddressBook.

Record t : Type := mk { contacts : list ContactRecord.t }.

Definition init : t := mk [].

Definition add_record (record : ContactRecord.t) (self : t) : t :=
  mk (contacts self ++ [record]).

(** One row of the birthday report. *)
Record entry : Type := mk_entry { entry_name : str; congratulation_date : str }.

Global Instance entry_eq_dec : EqDecision entry.
Proof. solve_decision. Defined.

Section Methods.

(** [str.lower()], the full Unicode lower-casing, is left abstract. *)
Variable lower : str → str.

Fixpoint find_in (records : list ContactRecord.t) (name : str)
  : option ContactRecord.t :=
  match records with
  | [] => None
  | record :: rest =>
      if decide (lower (ContactRecord.name record) = lower name)
      then Some record
      else find_in rest name
  end.

Definition find (self : t) (name : str) : option ContactRecord.t :=
  find_in (contacts self) name.

Variable pad_year : bool.

(** [today <= birthday_this_year <= today + timedelta(days=7)]: a chained
    comparison, the second operand pair evaluated only if the first holds. *)
Definition within_week (today birthday_this_year : Date.date) : result bool :=
  if Date.leb today birthday_this_year then
    limit ← Date.add_days today 7;
    Ok (Date.leb birthday_this_year limit)
  else Ok false.

(** The body of the loop for a record that has a birthday: the date
    compared, after the roll to next year. *)
Definition occurrence (today birthday : Date.date) : result Date.date :=
  birthday_this_year ← Date.replace_year birthday (Date.year today);
  if Date.ltb birthday_this_year today
  then Date.replace_year birthday_this_year (Date.year today + 1)
  else Ok birthday_this_year.

Fixpoint upcoming_from (today : Date.date) (records : list ContactRecord.t)
    (upcoming_birthdays : list entry) : result (list entry) :=
  match records with
  | [] => Ok upcoming_birthdays
  | record :: rest =>
      match ContactRecord.birthday record with
      | None => upcoming_from today rest upcoming_birthdays
      | Some b =>
          birthday_this_year ← occurrence today (Birthday.value b);
          inside ← within_week today birthday_this_year;
          upcoming_from today rest
            (if inside : bool
             then upcoming_birthdays
                  ++ [mk_entry (ContactRecord.name record)
                        (Date.strftime_ymd pad_year birthday_this_year)]
             else upcoming_birthdays)
      end
  end.

(** [today] stands for [datetime.today().date()]. *)
Definition get_upcoming_birthdays (today : Date.date) (self : t)
  : result (list entry) :=
  upcoming_from today (contacts self) [].

End Methods.

End AddressBook.

(** ** Command handlers *)

Module Handlers.

(** The [input_error] decorator. *)
Definition input_error (r : result str) : result str :=
  match r with
  | Raise ValueError => Ok (lit "Please give me proper value.")
  | Raise IndexError => Ok (lit "Enter the argument for the command.")
  | Raise KeyError => Ok (lit "Contact not found.")
  | _ => r
  end.

Section Handlers.

Variable lower : str → str.
Variable pad_year : bool.

Definition show_birthday (args : list str) (book : AddressBook.t)
  : result str :=
  input_error
    match args with
    | [] => Raise IndexError
    | name :: _ =>
        match AddressBook.find lower book name with
        | Some (ContactRecord.mk _ _ (Some b)) =>
            Ok (name ++ lit "'s birthday is on "
                ++ Date.strftime_dmy pad_year (Birthday.value b) ++ lit ".")
        | _ => Ok (lit "No birthday found for " ++ name ++ lit ".")
        end
    end.

Definition birthdays (today : Date.date) (args : list str)
    (book : AddressBook.t) : result str :=
  input_error
    (upcoming_birthdays ←
       AddressBook.get_upcoming_birthdays pad_year today book;
     match upcoming_birthdays with
     | [] => Ok (lit "No upcoming birthdays this week.")
     | _ =>
         Ok (join [10]
               (map (λ e, AddressBook.entry_name e ++ lit ": "
                          ++ AddressBook.congratulation_date e)
                    upcoming_birthdays))
     end).

End Handlers.

End Handlers.

(** ** Whitespace: [str.strip()] and [str.split()] *)

Module Text.

(** Code points for which [str.isspace()] holds (Unicode 14.0). *)
Definition space_ranges : list (N * N) :=
  [(9, 13); (28, 32); (133, 133); (160, 160); (5760, 5760); (8192, 8202);
   (8232, 8233); (8239, 8239); (8287, 8287); (12288, 12288)].

Definition isspace_cp (c : N) : bool := in_ranges c space_ranges.

Fixpoint lstrip (s : str) : str :=
  match s with
  | c :: s' => if isspace_cp c then lstrip s' else s
  | [] => []
  end.

Definition rstrip (s : str) : str := rev (lstrip (rev s)).

(** [s.strip()] *)
Definition strip (s : str) : str := rstrip (lstrip s).

(** [s.split()]: the maximal runs of characters that are not whitespace;
    [word] is the run being read. *)
Fixpoint split_from (s : str) (word : str) : list str :=
  match s with
  | [] => match word with [] => [] | _ => [word] end
  | c :: s' =>
      if isspace_cp c
      then match word with
           | [] => split_from s' []
           | _ => word :: split_from s' []
           end
      else split_from s' (word ++ [c])
  end.

Definition split (s : str) : list str := split_from s [].

End Text.

(** ** The command handlers that change the book

    A record is an object: [book.find] hands out the record stored in the
    book, and what a handler does to it shows in the book.  The position
    of a record in [contacts] stands for its identity (every stored record
    is an object of its own), so a method run on the record found is run
    at its position. *)

Module Commands.

Section Commands.

Variable lower : str → str.
Variable pad_year : bool.

(** The position of the record [AddressBook.find] returns. *)
Fixpoint find_index_from (i : nat) (records : list ContactRecord.t)
    (name : str) : option nat :=
  match records with
  | [] => None
  | record :: rest =>
      if decide (lower (ContactRecord.name record) = lower name)
      then Some i
      else find_index_from (S i) rest name
  end.

Definition find_index (book : AddressBook.t) (name : str) : option nat :=
  find_index_from 0 (AddressBook.contacts book) name.

(** A handler body takes the book to the book it leaves and its outcome. *)
Definition handler : Type := AddressBook.t → AddressBook.t * result str.

(** Run a method on the record stored at position [i]. *)
Definition on_record {A} (i : nat) (m : ContactRecord.method A)
    (book : AddressBook.t) : AddressBook.t * result A :=
  match AddressBook.contacts book !! i with
  | Some record =>
      let '(record', out) := m record in
      (AddressBook.mk (<[i := record']> (AddressBook.contacts book)), out)
  | None => (book, Raise IndexError)
  end.

(** [@input_error] around a handler body. *)
Definition decorated (body : handler) : handler := λ book,
  let '(book', out) := body book in (book', Handlers.input_error out).

Definition add_contact (args : list str) : handler :=
  decorated (λ book,
    match args with
    | name :: phone :: _ =>
        let '(book1, i, message) :=
          match find_index book name with
          | Some i => (book, i, lit "Contact updated.")
          | None =>
              (AddressBook.add_record (ContactRecord.init name) book,
               length (AddressBook.contacts book), lit "Contact added.")
          end in
        match phone with
        | [] => (book1, Ok message)
        | _ =>
            let '(book2, out) :=
              on_record i (ContactRecord.add_phone phone) book1 in
            (book2, _ ← out; Ok message)
        end
    | _ => (book, Raise ValueError)     (* not enough values to unpack *)
    end).

Definition change_contact (args : list str) : handler :=
  decorated (λ book,
    match args with
    | [name; old_phone; new_phone] =>
        match find_index book name with
        | None => (book, Raise KeyError)
        | Some i =>
            let '(book', out) :=
              on_record i (ContactRecord.change_phone old_phone new_phone)
                book in
            (book', _ ← out; Ok (lit "Phone number updated."))
        end
    | _ => (book, Raise ValueError)
    end).

Definition show_phone (args : list str) : handler :=
  decorated (λ book,
    match args with
    | [name] =>
        match AddressBook.find lower book name with
        | Some record =>
            (book,
             Ok (name ++ lit "'s phone(s): "
                 ++ join (lit ", ")
                      (map Phone.value (ContactRecord.phones record))))
        | None => (book, Raise KeyError)
        end
    | _ => (book, Raise ValueError)
    end).

Definition show_all : handler :=
  decorated (λ book,
    match AddressBook.contacts book with
    | [] => (book, Ok (lit "No contacts found."))
    | records => (book, Ok (join [10] (map ContactRecord.to_str records)))
    end).

Definition add_birthday (args : list str) : handler :=
  decorated (λ book,
    match args with
    | [name; birthday] =>
        match find_index book name with
        | None => (book, Raise KeyError)
        | Some i =>
            let '(book', out) :=
              on_record i (ContactRecord.add_birthday birthday) book in
            (book', _ ← out; Ok (lit "Birthday for " ++ name ++ lit " added."))
        end
    | _ => (book, Raise ValueError)     (* wrong number of values to unpack *)
    end).

(** [parse_input]: the command word, lower-cased, and the other words. *)
Definition parse_input (user_input : str) : result (str * list str) :=
  match Text.split user_input with
  | [] => Raise ValueError              (* not enough values to unpack *)
  | cmd :: args => Ok (lower (Text.strip cmd), args)
  end.

(** The branches of [main] below exit and close: the book left and the
    text printed, or the exception that leaves the handler. *)
Definition dispatch (today : Date.date) (command : str) (args : list str)
  : handler :=
  if decide (command = lit "hello")
  then λ book, (book, Ok (lit "How can I help you?"))
  else if decide (command = lit "add") then add_contact args
  else if decide (command = lit "change") then change_contact args
  else if decide (command = lit "phone") then show_phone args
  else if decide (command = lit "all") then show_all
  else if decide (command = lit "add-birthday") then add_birthday args
  else if decide (command = lit "show-birthday")
  then λ book, (book, Handlers.show_birthday lower pad_year args book)
  else if decide (command = lit "birthdays")
  then λ book, (book, Handlers.birthdays pad_year today args book)
  else λ book, (book, Ok (lit "Invalid command.")).

(** How a run of [main] ends: with the book saved on exit or close, with
    an exception that nothing catches (the book in memory is lost), or
    with [input()] finding no more lines (EOFError, likewise uncaught). *)
Inductive ending : Type :=
  | Saved (book : AddressBook.t)
  | Uncaught (e : exn) (book : AddressBook.t)
  | EndOfInput (book : AddressBook.t).

(** The greeting printed at the start. *)
Definition greeting : str :=
  [1055; 1088; 1080; 1074; 1110; 1090; 33; 32; 1071; 32; 1074; 1072; 1096;
   32; 1072; 1089; 1080; 1089; 1090; 1077; 1085; 1090; 46; 32; 1042; 1074;
   1077; 1076; 1110; 1090; 1100; 32; 39; 104; 101; 108; 108; 111; 39; 32;
   1076; 1083; 1103; 32; 1087; 1086; 1095; 1072; 1090; 1082; 1091; 46].

(** The [while True] loop of [main] over the lines typed, each with the
    date of the day it is typed on; [printed] collects what [print]
    writes. *)
Fixpoint main_loop (book : AddressBook.t) (inputs : list (Date.date * str))
    (printed : list str) : list str * ending :=
  match inputs with
  | [] => (printed, EndOfInput book)
  | (today, line) :: rest =>
      match parse_input (Text.strip line) with
      | Raise e => (printed, Uncaught e book)
      | Ok (command, args) =>
          if decide (command = lit "exit" ∨ command = lit "close")
          then (printed ++ [lit "Good bye!"], Saved book)
          else
            match dispatch today command args book with
            | (book', Ok text) => main_loop book' rest (printed ++ [text])
            | (book', Raise e) => (printed, Uncaught e book')
            end
      end
  end.

(** [main], from the book [load_data] returns. *)
Definition main (loaded : AddressBook.t) (inputs : list (Date.date * str))
  : list str * ending :=
  main_loop loaded inputs [greeting].

End Commands.

End Commands.

(** ** The claims' vocabulary *)

(** Modelled on the specification's words: a string of exactly 10 decimal
    digits, the digits being 0 to 9. *)
Definition ten_decimal_digits (s : str) : Prop :=
  length s = 10%nat ∧ Forall (λ c, 48 ≤ c ≤ 57) s.

(** What [Phone.validate] checks, character by character. *)
Definition ten_digit_characters (s : str) : Prop :=
  length s = 10%nat ∧ Forall (λ c, isdigit_cp c = true) s.

(** A call sequence on one record. *)
Inductive call : Type :=
  | AddPhone (phone : str)
  | ChangePhone (old_phone new_phone : str).

Definition run_call (self : ContactRecord.t) (c : call) : ContactRecord.t :=
  match c with
  | AddPhone phone => fst (ContactRecord.add_phone phone self)
  | ChangePhone old_phone new_phone =>
      fst (ContactRecord.change_phone old_phone new_phone self)
  end.

Definition run_calls (self : ContactRecord.t) (cs : list call)
  : ContactRecord.t :=
  foldl run_call self cs.

(** The invariant of the phone list. *)
Definition phones_valid (self : ContactRecord.t) : Prop :=
  Forall (λ p, ten_digit_characters (Phone.value p))
    (ContactRecord.phones self).

(** [needle] occurs in [hay] as a contiguous piece. *)
Definition occurs (needle hay : str) : Prop :=
  ∃ pre post, hay = pre ++ needle ++ post.

Fixpoint occursb (needle hay : str) : bool :=
  bool_decide (needle `prefix_of` hay)
  || match hay with
     | [] => false
     | _ :: hay' => occursb needle hay'
     end.

(** Lower-casing of the letters A to Z alone, which is what [str.lower]
    does on ASCII text; it stands in for [lower] where a concrete function
    is wanted. *)
Definition ascii_lower (s : str) : str :=
  map (λ c, if (65 <=? c) && (c <=? 90) then c + 32 else c) s.

(** Modelled on the specification's words: [s] is the text, in the form
    DD.MM.YYYY, of the real calendar date [d]. *)
Definition DDMMYYYY (s : str) (d : Date.date) : Prop :=
  Date.check_date_fields (Date.year d) (Date.month d) (Date.day d) = true
  ∧ s = Date.fmt2 (Date.day d) ++ lit "." ++ Date.fmt2 (Date.month d)
        ++ lit "." ++ Date.fmt4 (Date.year d).

(** The texts the day, month and year fields of [strptime] take. *)
Inductive day_text : str → Prop :=
  | day_thirties c : 48 ≤ c ≤ 49 → day_text [51; c]
  | day_tens c1 c2 :
      49 ≤ c1 ≤ 50 → isdecimal_cp c2 = true → day_text [c1; c2]
  | day_zero c : 49 ≤ c ≤ 57 → day_text [48; c]
  | day_one c : 49 ≤ c ≤ 57 → day_text [c]
  | day_space c : 49 ≤ c ≤ 57 → day_text [32; c].

Inductive month_text : str → Prop :=
  | month_tens c : 48 ≤ c ≤ 50 → month_text [49; c]
  | month_zero c : 49 ≤ c ≤ 57 → month_text [48; c]
  | month_one c : 49 ≤ c ≤ 57 → month_text [c].

Inductive year_text : str → Prop :=
  | year_four a b c d :
      isdecimal_cp a = true → isdecimal_cp b = true →
      isdecimal_cp c = true → isdecimal_cp d = true →
      year_text [a; b; c; d].

(** [s] reads as the date [d]: day, month and year fields separated by
    dots, their numbers those of a date that exists. *)
Definition date_text (s : str) (d : Date.date) : Prop :=
  ∃ dt mt yt,
    s = dt ++ lit "." ++ mt ++ lit "." ++ yt
    ∧ day_text dt ∧ month_text mt ∧ year_text yt
    ∧ int dt = Ok (Date.day d) ∧ int mt = Ok (Date.month d)
    ∧ int yt = Ok (Date.year d)
    ∧ Date.check_date_fields (Date.year d) (Date.month d) (Date.day d) = true.

(** A record answers to a name when the two lower-cased texts agree. *)
Definition answers (lower : str → str) (name : str) (r : ContactRecord.t)
  : Prop :=
  lower (ContactRecord.name r) = lower name.

(** ** The vocabulary of the further properties *)

(** The book a run of [main] ends with, saved or not. *)
Definition ending_book (e : Commands.ending) : AddressBook.t :=
  match e with
  | Commands.Saved book => book
  | Commands.Uncaught _ book => book
  | Commands.EndOfInput book => book
  end.

(** The single changes a command makes to the book: a fresh record is
    appended, or one of the three mutating methods runs on a stored
    record. *)
Inductive book_step : AddressBook.t → AddressBook.t → Prop :=
  | step_new name book :
      book_step book (AddressBook.add_record (ContactRecord.init name) book)
  | step_add_phone i phone book :
      book_step book
        (fst (Commands.on_record i (ContactRecord.add_phone phone) book))
  | step_change_phone i old_phone new_phone book :
      book_step book
        (fst (Commands.on_record i
                (ContactRecord.change_phone old_phone new_phone) book))
  | step_add_birthday i birthday book :
      book_step book
        (fst (Commands.on_record i (ContactRecord.add_birthday birthday)
                book)).

(** Every stored birthday is a date of the calendar. *)
Definition birthdays_real (book : AddressBook.t) : Prop :=
  Forall (λ r, ∀ b, ContactRecord.birthday r = Some b →
            Date.check_date_fields (Date.year (Birthday.value b))
              (Date.month (Birthday.value b)) (Date.day (Birthday.value b))
            = true)
    (AddressBook.contacts book).

(** A word as [split] yields them: not empty, no whitespace in it. *)
Definition is_word (w : str) : Prop :=
  w ≠ [] ∧ Forall (λ c, Text.isspace_cp c = false) w.

(** Nothing but whitespace, the empty text included. *)
Definition blank (s : str) : Prop :=
  Forall (λ c, Text.isspace_cp c = true) s.

(** A small book for the examples: Bob with two phones and a birthday,
    Ann with neither. *)
Definition sample_bob : ContactRecord.t :=
  ContactRecord.mk (lit "Bob")
    [Phone.mk (lit "1111111111"); Phone.mk (lit "2222222222")]
    (Some (Birthday.mk (Date.mk 2000 1 31))).

Definition sample_book : AddressBook.t :=
  AddressBook.mk [sample_bob; ContactRecord.init (lit "Ann")].

(** ** Proof steps *)

(** Arithmetic on quotients and remainders, named so that [lia] sees
    them as plain numbers. *)
Ltac name_divmod :=
  repeat match goal with
  | H : context [?a mod ?b] |- _ =>
      let r := fresh "r" in set (r := a mod b) in *; clearbody r
  | |- context [?a mod ?b] =>
      let r := fresh "r" in set (r := a mod b) in *; clearbody r
  | H : context [?a / ?b] |- _ =>
      let q := fresh "q" in set (q := a / b) in *; clearbody q
  | |- context [?a / ?b] =>
      let q := fresh "q" in set (q := a / b) in *; clearbody q
  end.

(** A character known to lie in a short range is one of its members. *)
Ltac enum_chars :=
  repeat match goal with
  | H : 48 ≤ ?c ≤ 49 |- _ =>
      assert (c = 48 ∨ c = 49) as [->| ->] by lia; clear H
  | H : 49 ≤ ?c ≤ 50 |- _ =>
      assert (c = 49 ∨ c = 50) as [->| ->] by lia; clear H
  | H : 48 ≤ ?c ≤ 50 |- _ =>
      assert (c = 48 ∨ c = 49 ∨ c = 50) as [->|[->| ->]] by lia; clear H
  | H : 49 ≤ ?c ≤ 57 |- _ =>
      assert (c = 49 ∨ c = 50 ∨ c = 51 ∨ c = 52 ∨ c = 53 ∨ c = 54
              ∨ c = 55 ∨ c = 56 ∨ c = 57)
        as [->|[->|[->|[->|[->|[->|[->|[->| ->]]]]]]]] by lia; clear H
  end.

(** ** Phone numbers *)

Lemma isdigit_cp_ascii c : 48 ≤ c ≤ 57 → isdigit_cp c = true.
Proof.
  intros [H1 H2]. unfold isdigit_cp, isdecimal_cp, in_ranges, decimal_ranges.
  cbn [existsb]. unfold in_range at 1. cbn [fst snd].
  apply N.leb_le in H1. apply N.leb_le in H2. by rewrite H1, H2.
Qed.

Lemma isdigit_Forall s :
  isdigit s = true ↔ s ≠ [] ∧ Forall (λ c, isdigit_cp c = true) s.
Proof.
  destruct s as [|c s]; [split; [done|by intros [? _]]|].
  unfold isdigit. rewrite forallb_forall, Forall_forall.
  setoid_rewrite list_elem_of_In.
  split; [intros H; split; [done|exact H]|intros [_ H]; exact H].
Qed.

Lemma validate_spec s : Phone.validate s = true ↔ ten_digit_characters s.
Proof.
  unfold Phone.validate, ten_digit_characters.
  rewrite andb_true_iff, bool_decide_eq_true, isdigit_Forall.
  split; [by intros [[_ ?] ?]|]. intros [Hl ?]. split_and!; [|done..].
  by destruct s.
Qed.

Lemma ten_decimal_digits_valid s :
  ten_decimal_digits s → ten_digit_characters s.
Proof.
  intros [? Hd]. split; [done|].
  eapply Forall_impl; [exact Hd|]. apply isdigit_cp_ascii.
Qed.

Lemma Phone_init_valid s :
  Phone.validate s = true → Phone.init s = Ok (Phone.mk s).
Proof. unfold Phone.init. by intros ->. Qed.

Lemma Phone_init_invalid s :
  Phone.validate s = false → Phone.init s = Raise ValueError.
Proof. unfold Phone.init. by intros ->. Qed.

Lemma Phone_init_Ok s p :
  Phone.init s = Ok p → p = Phone.mk s ∧ Phone.validate s = true.
Proof.
  unfold Phone.init. destruct (Phone.validate s); simpl; naive_solver.
Qed.

Lemma Phone_init_Raise s e :
  Phone.init s = Raise e → e = ValueError ∧ Phone.validate s = false.
Proof.
  unfold Phone.init. destruct (Phone.validate s); simpl; naive_solver.
Qed.

(** C2, as the code has it: construction succeeds, keeping the text as it
    is, exactly on the strings of 10 characters that [str.isdigit] calls
    digits, which include the strings of 10 digits 0 to 9; every other
    string is refused with ValueError. *)
Theorem Phone_init_spec (s : str) :
  (ten_digit_characters s → Phone.init s = Ok (Phone.mk s))
  ∧ (¬ ten_digit_characters s → Phone.init s = Raise ValueError)
  ∧ (ten_decimal_digits s → Phone.init s = Ok (Phone.mk s)).
Proof.
  split_and!.
  - intros H. by apply Phone_init_valid, validate_spec.
  - intros H. apply Phone_init_invalid.
    destruct (Phone.validate s) eqn:E; [|done].
    by apply validate_spec in E.
  - intros H.
    by apply Phone_init_valid, validate_spec, ten_decimal_digits_valid.
Qed.

Lemma Phone_init_spec_witness :
  Phone.init (lit "1234567890") = Ok (Phone.mk (lit "1234567890"))
  ∧ Phone.init (lit "12345") = Raise ValueError.
Proof.
  split.
  - apply (Phone_init_spec (lit "1234567890")).
    split; [reflexivity|]. repeat constructor; vm_compute; discriminate.
  - apply (Phone_init_spec (lit "12345")).
    intros [Hlen _]. vm_compute in Hlen. discriminate.
Defined.

(** C2, as the specification words it, fails: ten superscript twos
    (U+00B2) are no decimal digits, of any script, and yet make a phone
    number. *)
Lemma Phone_init_superscript_twos :
  let s := repeat 178 10 in
  ¬ ten_decimal_digits s
  ∧ Forall (λ c, isdecimal_cp c = false) s
  ∧ Phone.init s = Ok (Phone.mk s).
Proof.
  split_and!.
  - intros [_ H]. apply Forall_cons in H as [[_ H] _]. lia.
  - repeat constructor.
  - reflexivity.
Qed.

(** ** Records *)

(** C8: [add_phone] appends one validated phone at the end when the text
    passes validation, raises ValueError when it does not, and then leaves
    the record as it was; on a fresh record, after "1234567890" is added,
    adding "12345" fails and one phone is stored. *)
Theorem add_phone_spec (self : ContactRecord.t) (phone_text : str) :
  (Phone.validate phone_text = true →
     ContactRecord.add_phone phone_text self =
       (ContactRecord.mk (ContactRecord.name self)
          (ContactRecord.phones self ++ [Phone.mk phone_text])
          (ContactRecord.birthday self), Ok ()))
  ∧ (Phone.validate phone_text = false →
       ContactRecord.add_phone phone_text self = (self, Raise ValueError))
  ∧ (∀ name,
       let fresh := ContactRecord.init name in
       let first := ContactRecord.add_phone (lit "1234567890") fresh in
       let second := ContactRecord.add_phone (lit "12345") (fst first) in
       snd first = Ok ()
       ∧ snd second = Raise ValueError
       ∧ ContactRecord.phones (fst second) = [Phone.mk (lit "1234567890")]).
Proof.
  unfold ContactRecord.add_phone. split_and!.
  - intros H. by rewrite (Phone_init_valid _ H).
  - intros H. by rewrite (Phone_init_invalid _ H).
  - done.
Qed.

Lemma add_phone_spec_witness :
  ContactRecord.add_phone (lit "12345") (ContactRecord.init (lit "Alice"))
  = (ContactRecord.init (lit "Alice"), Raise ValueError)
  ∧ ContactRecord.add_phone (lit "1234567890")
      (ContactRecord.init (lit "Alice"))
    = (ContactRecord.mk (lit "Alice") [Phone.mk (lit "1234567890")] None,
       Ok ()).
Proof.
  split.
  - apply (add_phone_spec (ContactRecord.init (lit "Alice")) (lit "12345")).
    reflexivity.
  - apply (add_phone_spec (ContactRecord.init (lit "Alice"))
             (lit "1234567890")).
    reflexivity.
Defined.

(** The loop of [change_phone], from any index on. *)
Lemma change_phone_from_no_match idx rest old_phone new_phone self :
  Forall (λ p, Phone.value p ≠ old_phone) rest →
  ContactRecord.change_phone_from idx rest old_phone new_phone self
  = (self, Raise KeyError).
Proof.
  intros H. revert idx. induction H as [|p rest Hp _ IH]; intros idx; [done|].
  simpl. by destruct (decide _).
Qed.

Lemma change_phone_from_match idx pre p post old_phone new_phone self :
  Forall (λ q, Phone.value q ≠ old_phone) pre →
  Phone.value p = old_phone →
  ContactRecord.change_phone_from idx (pre ++ p :: post)
    old_phone new_phone self
  = match Phone.init new_phone with
    | Ok q =>
        (ContactRecord.mk (ContactRecord.name self)
           (<[(idx + length pre)%nat := q]> (ContactRecord.phones self))
           (ContactRecord.birthday self), Ok ())
    | Raise e => (self, Raise e)
    end.
Proof.
  intros H Hp. revert idx.
  induction H as [|q pre Hq _ IH]; intros idx; simpl.
  - rewrite decide_True by done. by rewrite Nat.add_0_r.
  - rewrite decide_False by done. rewrite IH.
    by replace (S idx + length pre)%nat with (idx + S (length pre))%nat by lia.
Qed.

(** Either some phone is the first to carry [old_phone], or none does. *)
Lemma first_match_or_none (old_phone : str) (l : list Phone.t) :
  Forall (λ p, Phone.value p ≠ old_phone) l
  ∨ ∃ pre p post, l = pre ++ p :: post
      ∧ Forall (λ q, Phone.value q ≠ old_phone) pre
      ∧ Phone.value p = old_phone.
Proof.
  induction l as [|p l IH]; [by left|].
  destruct (decide (Phone.value p = old_phone)) as [Hp|Hp].
  - right. by exists [], p, l.
  - destruct IH as [IH|(pre & q & post & -> & Hpre & Hq)].
    + left. by constructor.
    + right. exists (p :: pre), q, post. split_and!; [done| |done].
      by constructor.
Qed.

(** C4: [change_phone] replaces the first phone equal to [old_text] by
    the validated [new_text]; with no such phone it raises KeyError (the
    phone is not found); with such a phone and an invalid [new_text] it
    raises ValueError (the format is invalid) and the old phone stays in
    place; in both failures the record is as it was. *)
Theorem change_phone_spec (self : ContactRecord.t) (old_text new_text : str) :
  (Forall (λ p, Phone.value p ≠ old_text) (ContactRecord.phones self) →
     ContactRecord.change_phone old_text new_text self
     = (self, Raise KeyError))
  ∧ (∀ pre p post,
       ContactRecord.phones self = pre ++ p :: post →
       Forall (λ q, Phone.value q ≠ old_text) pre →
       Phone.value p = old_text →
       (Phone.validate new_text = false →
          ContactRecord.change_phone old_text new_text self
          = (self, Raise ValueError))
       ∧ (Phone.validate new_text = true →
            ContactRecord.change_phone old_text new_text self
            = (ContactRecord.mk (ContactRecord.name self)
                 (pre ++ Phone.mk new_text :: post)
                 (ContactRecord.birthday self), Ok ()))).
Proof.
  unfold ContactRecord.change_phone. split.
  - apply change_phone_from_no_match.
  - intros pre p post Hl Hpre Hp.
    pose proof (change_phone_from_match 0 pre p post old_text new_text self
                  Hpre Hp) as Hloop.
    rewrite <- Hl in Hloop. rewrite Hloop.
    split; intros Hv.
    + by rewrite (Phone_init_invalid _ Hv).
    + rewrite (Phone_init_valid _ Hv), Hl. simpl.
      by rewrite (insert_app_r_alt pre), Nat.sub_diag by lia.
Qed.

Lemma change_phone_spec_witness :
  let self :=
    ContactRecord.mk (lit "Bob")
      [Phone.mk (lit "1111111111"); Phone.mk (lit "2222222222");
       Phone.mk (lit "2222222222")] None in
  ContactRecord.change_phone (lit "3333333333") (lit "4444444444") self
  = (self, Raise KeyError)
  ∧ ContactRecord.change_phone (lit "2222222222") (lit "12345") self
    = (self, Raise ValueError)
  ∧ ContactRecord.change_phone (lit "2222222222") (lit "4444444444") self
    = (ContactRecord.mk (lit "Bob")
         [Phone.mk (lit "1111111111"); Phone.mk (lit "4444444444");
          Phone.mk (lit "2222222222")] None, Ok ()).
Proof.
  intros self. split_and!.
  - apply (change_phone_spec self (lit "3333333333") (lit "4444444444")).
    repeat constructor; vm_compute; discriminate.
  - apply (proj2 (change_phone_spec self (lit "2222222222") (lit "12345"))
             [Phone.mk (lit "1111111111")] (Phone.mk (lit "2222222222"))
             [Phone.mk (lit "2222222222")]);
      [reflexivity| |reflexivity|reflexivity].
    repeat constructor; vm_compute; discriminate.
  - apply (proj2 (change_phone_spec self (lit "2222222222")
                    (lit "4444444444"))
             [Phone.mk (lit "1111111111")] (Phone.mk (lit "2222222222"))
             [Phone.mk (lit "2222222222")]);
      [reflexivity| |reflexivity|reflexivity].
    repeat constructor; vm_compute; discriminate.
Defined.

Lemma add_phone_valid phone self :
  phones_valid self → phones_valid (fst (ContactRecord.add_phone phone self)).
Proof.
  unfold ContactRecord.add_phone, phones_valid. intros H.
  destruct (Phone.init phone) as [p|e] eqn:E; simpl; [|done].
  apply Phone_init_Ok in E as [-> Hv]. apply Forall_app. split; [done|].
  constructor; [|done]. by apply validate_spec.
Qed.

Lemma change_phone_valid old_phone new_phone self :
  phones_valid self →
  phones_valid (fst (ContactRecord.change_phone old_phone new_phone self)).
Proof.
  unfold ContactRecord.change_phone, phones_valid. intros H.
  destruct (first_match_or_none old_phone (ContactRecord.phones self))
    as [Hnone|(pre & p & post & Hl & Hpre & Hp)].
  - by rewrite change_phone_from_no_match.
  - pose proof (change_phone_from_match 0 pre p post old_phone new_phone self
                  Hpre Hp) as Hloop.
    rewrite <- Hl in Hloop. rewrite Hloop.
    destruct (Phone.init new_phone) as [q|e] eqn:E; simpl; [|done].
    apply Phone_init_Ok in E as [-> Hv]. apply Forall_insert; [done|].
    by apply validate_spec.
Qed.

Lemma run_calls_valid calls : ∀ self,
  phones_valid self → phones_valid (run_calls self calls).
Proof.
  induction calls as [|c calls IH]; intros self H; [done|].
  simpl. apply IH. destruct c; simpl.
  - by apply add_phone_valid.
  - by apply change_phone_valid.
Qed.

(** C10: whatever calls of [add_phone] and [change_phone] a record has
    gone through since it was created, succeeding or failing, every phone
    it stores is a string of exactly 10 digits, as [Phone.validate]
    understands digits. *)
Theorem phones_always_valid (name : str) (calls : list call) :
  Forall (λ p, length (Phone.value p) = 10%nat
               ∧ Forall (λ c, isdigit_cp c = true) (Phone.value p)
               ∧ Phone.validate (Phone.value p) = true)
    (ContactRecord.phones (run_calls (ContactRecord.init name) calls)).
Proof.
  eapply Forall_impl.
  - apply (run_calls_valid calls (ContactRecord.init name)). constructor.
  - intros p Hp. simpl. destruct (Hp) as [H1 H2].
    split_and!; [done|done|]. by apply validate_spec.
Qed.

(** ** Birthdays *)

Lemma int_digits_exn s : ∀ acc e, int_digits acc s = Raise e → e = ValueError.
Proof.
  induction s as [|c s IH]; intros acc e; simpl; [done|].
  destruct (decimal_value c); [apply IH|congruence].
Qed.

Lemma int_cons c s : c ≠ 32 → int (c :: s) = int_digits 0 (c :: s).
Proof.
  intros Hc. destruct c as [|q]; [done|].
  do 6 (destruct q as [q|q|]; try done).
Qed.

Lemma int_exn s e : int s = Raise e → e = ValueError.
Proof.
  induction s as [|c s IH]; [simpl; congruence|].
  destruct (decide (c = 32)) as [->|Hc]; [done|].
  rewrite int_cons by done. apply int_digits_exn.
Qed.

Lemma new_exn y m d e : Date.new y m d = Raise e → e = ValueError.
Proof. unfold Date.new. destruct (Date.check_date_fields y m d); congruence. Qed.

Lemma strptime_dmy_exn s e : Date.strptime_dmy s = Raise e → e = ValueError.
Proof.
  unfold Date.strptime_dmy.
  destruct (Date.re_match s) as [[[[d m] y] [|c rest]]|]; [|congruence..].
  destruct (int y) as [yy|] eqn:Ey; simpl; [|by apply int_exn in Ey; subst; congruence].
  destruct (int m) as [mm|] eqn:Em; simpl; [|by apply int_exn in Em; subst; congruence].
  destruct (int d) as [dd|] eqn:Ed; simpl; [|by apply int_exn in Ed; subst; congruence].
  apply new_exn.
Qed.

Lemma Birthday_init_exn s e : Birthday.init s = Raise e → e = ValueError.
Proof.
  unfold Birthday.init. destruct (Date.strptime_dmy s) as [d|e'] eqn:E; [done|].
  apply strptime_dmy_exn in E as ->. congruence.
Qed.

(** C9: when the text does not make a Birthday, [add_birthday] raises
    ValueError and the record, its birthday field included, is what it
    was before the call, whether a birthday was set or not. *)
Theorem add_birthday_atomic (self : ContactRecord.t) (birthday_text : str) :
  (∀ b, Birthday.init birthday_text ≠ Ok b) →
  ContactRecord.add_birthday birthday_text self = (self, Raise ValueError)
  ∧ ContactRecord.birthday
      (fst (ContactRecord.add_birthday birthday_text self))
    = ContactRecord.birthday self.
Proof.
  intros H. unfold ContactRecord.add_birthday.
  destruct (Birthday.init birthday_text) as [b|e] eqn:E.
  - by destruct (H b).
  - by apply Birthday_init_exn in E as ->.
Qed.

Lemma add_birthday_atomic_witness :
  let self :=
    ContactRecord.mk (lit "Bob") []
      (Some (Birthday.mk (Date.mk 2000 1 31))) in
  ContactRecord.add_birthday (lit "31.02.2024") self = (self, Raise ValueError)
  ∧ ContactRecord.birthday
      (fst (ContactRecord.add_birthday (lit "31.02.2024") self))
    = Some (Birthday.mk (Date.mk 2000 1 31)).
Proof.
  intros self. apply (add_birthday_atomic self (lit "31.02.2024")).
  intros b. vm_compute. discriminate.
Defined.

(** ** Lookup by name *)

Section Find.

Variable lower : str → str.

Lemma find_in_Some records name r :
  AddressBook.find_in lower records name = Some r ↔
  ∃ pre post, records = pre ++ r :: post
    ∧ answers lower name r ∧ Forall (λ r', ¬ answers lower name r') pre.
Proof.
  unfold answers. induction records as [|r0 records IH]; simpl.
  - split; [done|]. intros (pre & post & H & _). by destruct pre.
  - destruct (decide (lower (ContactRecord.name r0) = lower name)) as [E|E].
    + split.
      * intros [= ->]. by exists [], records.
      * intros (pre & post & H & Hr & Hpre).
        destruct pre as [|r1 pre]; simplify_eq/=; [done|].
        by apply Forall_cons in Hpre as [? _].
    + rewrite IH. split.
      * intros (pre & post & -> & Hr & Hpre).
        exists (r0 :: pre), post. split_and!; [done|done|by constructor].
      * intros (pre & post & H & Hr & Hpre).
        destruct pre as [|r1 pre]; simplify_eq/=; try done.
        apply Forall_cons in Hpre as [_ Hpre]. by exists pre, post.
Qed.

Lemma find_in_None records name :
  AddressBook.find_in lower records name = None ↔
  Forall (λ r', ¬ answers lower name r') records.
Proof.
  unfold answers. induction records as [|r0 records IH]; simpl; [done|].
  destruct (decide (lower (ContactRecord.name r0) = lower name)) as [E|E].
  - split; [done|]. by intros [? _]%Forall_cons.
  - rewrite IH. split; [by constructor|by intros [_ ?]%Forall_cons].
Qed.

Lemma find_in_lower records name name' :
  lower name = lower name' →
  AddressBook.find_in lower records name
  = AddressBook.find_in lower records name'.
Proof.
  intros E. induction records as [|r0 records IH]; simpl; [done|].
  by rewrite E, IH.
Qed.

(** C6: [find] scans the contacts in order and returns the first record
    whose lower-cased name equals the lower-cased text, and None, not an
    error, when there is none; texts with the same lower-casing get the
    same answer, so that, "Bob" and "bob" lower-casing alike, both find the
    same record, and do find one when a record named "Bob" is stored. *)
Theorem find_spec (book : AddressBook.t) (name_text : str) :
  (∀ r, AddressBook.find lower book name_text = Some r ↔
        ∃ pre post, AddressBook.contacts book = pre ++ r :: post
          ∧ lower (ContactRecord.name r) = lower name_text
          ∧ Forall (λ r', lower (ContactRecord.name r') ≠ lower name_text)
              pre)
  ∧ (AddressBook.find lower book name_text = None ↔
     Forall (λ r', lower (ContactRecord.name r') ≠ lower name_text)
       (AddressBook.contacts book))
  ∧ (∀ other, lower other = lower name_text →
       AddressBook.find lower book other
       = AddressBook.find lower book name_text)
  ∧ (lower (lit "Bob") = lower (lit "bob") →
     AddressBook.find lower book (lit "Bob")
     = AddressBook.find lower book (lit "bob")
     ∧ ((∃ r, r ∈ AddressBook.contacts book
              ∧ ContactRecord.name r = lit "Bob") →
        ∃ r, AddressBook.find lower book (lit "bob") = Some r
             ∧ lower (ContactRecord.name r) = lower (lit "Bob"))).
Proof.
  unfold AddressBook.find. split_and!.
  - intros r. apply find_in_Some.
  - apply find_in_None.
  - intros other E. by apply find_in_lower.
  - intros E. split; [by apply find_in_lower|].
    intros (r & Hr & Hname).
    destruct (AddressBook.find_in lower (AddressBook.contacts book)
                (lit "bob")) as [r'|] eqn:F.
    + exists r'. split; [done|].
      apply find_in_Some in F as (_ & _ & _ & F & _).
      unfold answers in F. by rewrite F.
    + apply find_in_None in F. rewrite Forall_forall in F.
      destruct (F r Hr). unfold answers. by rewrite Hname.
Qed.

End Find.

Lemma find_spec_witness :
  let bob := ContactRecord.mk (lit "Bob") [Phone.mk (lit "1234567890")] None in
  let book := AddressBook.mk [ContactRecord.init (lit "Alice"); bob] in
  AddressBook.find ascii_lower book (lit "Bob")
  = AddressBook.find ascii_lower book (lit "bob")
  ∧ ∃ r, AddressBook.find ascii_lower book (lit "bob") = Some r
         ∧ ascii_lower (ContactRecord.name r) = ascii_lower (lit "Bob").
Proof.
  intros bob book.
  destruct (find_spec ascii_lower book (lit "bob")) as (_ & _ & _ & H).
  destruct (H eq_refl) as [H1 H2]. split; [exact H1|].
  apply H2. exists bob. split; [|reflexivity].
  apply list_elem_of_In. right. by left.
Defined.

(** ** Rendering a record *)

Lemma occursb_prefix needle hay :
  needle `prefix_of` hay → occursb needle hay = true.
Proof.
  intros H. destruct hay; simpl; by rewrite bool_decide_eq_true_2.
Qed.

Lemma occurs_occursb needle hay : occurs needle hay → occursb needle hay = true.
Proof.
  intros (pre & post & ->). induction pre as [|c pre IH]; simpl.
  - apply occursb_prefix. by exists post.
  - rewrite IH. apply orb_true_r.
Qed.

(** C7, as the code has it: the text of a record is a function of the
    record; it holds the name, the phone values joined by ", ", and after
    "birthday=" either the birthday in the ISO form YYYY-MM-DD (what
    [str] gives for a date) or the fixed "N/A". *)
Theorem to_str_spec (self : ContactRecord.t) :
  occurs (lit "name=" ++ ContactRecord.name self ++ lit ", ")
    (ContactRecord.to_str self)
  ∧ occurs
      (lit "phones="
       ++ join (lit ", ") (map Phone.value (ContactRecord.phones self))
       ++ lit ", ")
      (ContactRecord.to_str self)
  ∧ match ContactRecord.birthday self with
    | Some b =>
        occurs
          (lit "birthday="
           ++ (Date.fmt4 (Date.year (Birthday.value b)) ++ lit "-"
               ++ Date.fmt2 (Date.month (Birthday.value b)) ++ lit "-"
               ++ Date.fmt2 (Date.day (Birthday.value b)))
           ++ lit ")")
          (ContactRecord.to_str self)
    | None => occurs (lit "birthday=N/A)") (ContactRecord.to_str self)
    end.
Proof.
  unfold ContactRecord.to_str, occurs.
  set (nm := ContactRecord.name self).
  set (ph := join (lit ", ") (map Phone.value (ContactRecord.phones self))).
  split_and!; [| |destruct (ContactRecord.birthday self) as [b|]].
  - set (bd := match ContactRecord.birthday self with
               | Some b => Date.isoformat (Birthday.value b)
               | None => lit "N/A"
               end).
    exists (lit "Record("),
      (lit "phones=" ++ ph ++ lit ", birthday=" ++ bd ++ lit ")").
    rewrite <- !app_assoc. reflexivity.
  - set (bd := match ContactRecord.birthday self with
               | Some b => Date.isoformat (Birthday.value b)
               | None => lit "N/A"
               end).
    exists (lit "Record(name=" ++ nm ++ lit ", "),
      (lit "birthday=" ++ bd ++ lit ")").
    rewrite <- !app_assoc. reflexivity.
  - exists (lit "Record(name=" ++ nm ++ lit ", phones=" ++ ph ++ lit ", "), [].
    unfold Date.isoformat. rewrite <- !app_assoc, !app_nil_r. reflexivity.
  - exists (lit "Record(name=" ++ nm ++ lit ", phones=" ++ ph ++ lit ", "), [].
    rewrite <- !app_assoc. reflexivity.
Qed.

(** C7, as worded, fails: the birthday is not shown as DD.MM.YYYY. *)
Lemma to_str_birthday_is_iso :
  let bob :=
    ContactRecord.mk (lit "Bob")
      [Phone.mk (lit "1234567890"); Phone.mk (lit "0987654321")]
      (Some (Birthday.mk (Date.mk 2000 1 31))) in
  Birthday.init (lit "31.01.2000") = Ok (Birthday.mk (Date.mk 2000 1 31))
  ∧ Date.strftime_dmy true (Date.mk 2000 1 31) = lit "31.01.2000"
  ∧ Date.strftime_dmy false (Date.mk 2000 1 31) = lit "31.01.2000"
  ∧ ContactRecord.to_str bob
    = lit "Record(name=Bob, phones=1234567890, 0987654321, birthday=2000-01-31)"
  ∧ ¬ occurs (lit "31.01.2000") (ContactRecord.to_str bob).
Proof.
  split_and!; [reflexivity..|].
  intros H%occurs_occursb. vm_compute in H. discriminate.
Qed.

(** ** The birthday report *)

(** C5 at a leap-day birthday: "29.02.2000" is accepted as a birthday, and
    on 1 March 2023 the report stops at the substitution of the year with
    ValueError instead of returning its rows; the handler's decorator
    turns that into the "proper value" message.  The same happens in a
    leap year once 29 February has passed, at the roll to the next year. *)
Theorem upcoming_birthdays_leap_day (pad_year : bool) :
  let ann :=
    fst (ContactRecord.add_birthday (lit "29.02.2000")
           (ContactRecord.init (lit "Ann"))) in
  let book := AddressBook.mk [ann] in
  ContactRecord.birthday ann = Some (Birthday.mk (Date.mk 2000 2 29))
  ∧ Date.replace_year (Date.mk 2000 2 29) 2023 = Raise ValueError
  ∧ AddressBook.get_upcoming_birthdays pad_year (Date.mk 2023 3 1) book
    = Raise ValueError
  ∧ AddressBook.get_upcoming_birthdays pad_year (Date.mk 2024 3 1) book
    = Raise ValueError
  ∧ Handlers.birthdays pad_year (Date.mk 2023 3 1) [] book
    = Ok (lit "Please give me proper value.").
Proof. destruct pad_year; split_and!; reflexivity. Qed.

(** ** Birthday texts *)

Lemma digit_range n : 48 ≤ Date.digit n ≤ 57.
Proof.
  unfold Date.digit. pose proof (N.mod_upper_bound n 10 ltac:(done)).
  name_divmod. lia.
Qed.

Lemma isdecimal_cp_ascii c : 48 ≤ c ≤ 57 → isdecimal_cp c = true.
Proof.
  intros [H1 H2]. unfold isdecimal_cp, in_ranges, decimal_ranges.
  cbn [existsb]. unfold in_range at 1. cbn [fst snd].
  apply N.leb_le in H1. apply N.leb_le in H2. by rewrite H1, H2.
Qed.

Lemma decimal_value_ascii c : 48 ≤ c ≤ 57 → decimal_value c = Some (c - 48).
Proof.
  intros [H1 H2]. unfold decimal_value, decimal_ranges.
  cbn [List.find]. unfold in_range at 1. cbn [fst snd].
  pose proof H1 as H1'. pose proof H2 as H2'.
  apply N.leb_le in H1'. apply N.leb_le in H2'. rewrite H1', H2'.
  cbn [andb fst]. f_equal. apply N.mod_small. lia.
Qed.

Lemma decimal_value_digit n : decimal_value (Date.digit n) = Some (n mod 10).
Proof.
  rewrite decimal_value_ascii by apply digit_range.
  unfold Date.digit. f_equal. name_divmod. lia.
Qed.

Lemma digit_not_space n : Date.digit n ≠ 32.
Proof. pose proof (digit_range n). lia. Qed.

Lemma int_fmt2 n : n < 100 → int (Date.fmt2 n) = Ok n.
Proof.
  intros Hn. unfold Date.fmt2. rewrite int_cons by apply digit_not_space.
  cbn [int_digits]. rewrite !decimal_value_digit. f_equal.
  assert (n / 10 < 10) by (apply N.Div0.div_lt_upper_bound; lia).
  rewrite (N.mod_small (n / 10)) by done.
  pose proof (N.Div0.div_mod n 10).
  pose proof (N.mod_upper_bound n 10 ltac:(done)).
  name_divmod. lia.
Qed.

Lemma int_fmt4 n : n < 10000 → int (Date.fmt4 n) = Ok n.
Proof.
  intros Hn. unfold Date.fmt4. rewrite int_cons by apply digit_not_space.
  cbn [int_digits]. rewrite !decimal_value_digit. f_equal.
  assert (n / 1000 < 10) by (apply N.Div0.div_lt_upper_bound; lia).
  rewrite (N.mod_small (n / 1000)) by done.
  replace (n / 1000) with (n / 10 / 10 / 10) by (rewrite !N.Div0.div_div; done).
  replace (n / 100) with (n / 10 / 10) by (rewrite !N.Div0.div_div; done).
  pose proof (N.Div0.div_mod n 10).
  pose proof (N.mod_upper_bound n 10 ltac:(done)).
  pose proof (N.Div0.div_mod (n / 10) 10).
  pose proof (N.mod_upper_bound (n / 10) 10 ltac:(done)).
  pose proof (N.Div0.div_mod (n / 10 / 10) 10).
  pose proof (N.mod_upper_bound (n / 10 / 10) 10 ltac:(done)).
  name_divmod. lia.
Qed.

(** *** The regular expression of the format *)

Lemma between_spec lo hi c : Date.between lo hi c = true ↔ lo ≤ c ≤ hi.
Proof.
  unfold Date.between. rewrite andb_true_iff, !N.leb_le. done.
Qed.

Lemma alt_Some {A} (x y : option A) v :
  Date.alt x y = Some v ↔ x = Some v ∨ (x = None ∧ y = Some v).
Proof.
  destruct x as [a|]; simpl.
  - split; [by left|]. by intros [?|[? _]].
  - split; [by right|]. by intros [?|[_ ?]].
Qed.

Lemma one_Some {A} p s (k : str → str → option A) v :
  Date.one p s k = Some v ↔
  ∃ c r, s = c :: r ∧ p c = true ∧ k [c] r = Some v.
Proof.
  destruct s as [|c r]; simpl.
  { split; [done|]. by intros (? & ? & ? & _). }
  destruct (p c) eqn:E.
  - split; [by exists c, r|]. by intros (? & ? & [= <- <-] & _ & ?).
  - split; [done|]. intros (? & ? & [= <- <-] & ? & _). congruence.
Qed.

Lemma two_Some {A} p1 p2 s (k : str → str → option A) v :
  Date.two p1 p2 s k = Some v ↔
  ∃ c1 c2 r, s = c1 :: c2 :: r ∧ p1 c1 = true ∧ p2 c2 = true
             ∧ k [c1; c2] r = Some v.
Proof.
  destruct s as [|c1 [|c2 r]]; simpl.
  { split; [done|]. by intros (? & ? & ? & ? & _). }
  { split; [done|]. by intros (? & ? & ? & ? & _). }
  destruct (p1 c1 && p2 c2) eqn:E.
  - apply andb_true_iff in E as [E1 E2].
    split; [by exists c1, c2, r|].
    by intros (? & ? & ? & [= <- <- <-] & _ & _ & ?).
  - split; [done|]. intros (? & ? & ? & [= <- <- <-] & E1 & E2 & _).
    rewrite E1, E2 in E. done.
Qed.

Lemma re_dot_cons {A} c r (k : str → option A) :
  Date.re_dot (c :: r) k = if decide (c = 46) then k r else None.
Proof.
  destruct (decide (c = 46)) as [->|Hc]; [done|].
  destruct c as [|q]; [done|]. do 6 (destruct q as [q|q|]; try done).
Qed.

Lemma re_dot_Some {A} s (k : str → option A) v :
  Date.re_dot s k = Some v ↔ ∃ r, s = 46 :: r ∧ k r = Some v.
Proof.
  destruct s as [|c r].
  { split; [done|]. by intros (? & ? & _). }
  rewrite re_dot_cons. destruct (decide (c = 46)) as [->|Hc].
  - split; [by exists r|]. by intros (? & [= <-] & ?).
  - split; [done|]. intros (? & [= ? ?] & _). done.
Qed.

Lemma isdecimal_cp_dot : isdecimal_cp 46 = false.
Proof. reflexivity. Qed.

Lemma re_d_dot {A} s (k : str → str → option A) v :
  Date.re_d s (λ d r, Date.re_dot r (k d)) = Some v ↔
  ∃ dt r, s = dt ++ 46 :: r ∧ day_text dt ∧ k dt r = Some v.
Proof.
  split.
  - unfold Date.re_d. rewrite !alt_Some, !two_Some, one_Some.
    setoid_rewrite re_dot_Some. setoid_rewrite between_spec.
    intros [H|[_ [H|[_ [H|[_ [H|[_ H]]]]]]]].
    + destruct H as (c1 & c2 & r0 & -> & H1 & H2 & r & -> & Hk).
      assert (c1 = 51) as -> by lia.
      exists [51; c2], r. split_and!; [done| |done]. by constructor.
    + destruct H as (c1 & c2 & r0 & -> & H1 & H2 & r & -> & Hk).
      exists [c1; c2], r. split_and!; [done| |done]. by constructor.
    + destruct H as (c1 & c2 & r0 & -> & H1 & H2 & r & -> & Hk).
      assert (c1 = 48) as -> by lia.
      exists [48; c2], r. split_and!; [done| |done]. by constructor.
    + destruct H as (c & r0 & -> & H1 & r & -> & Hk).
      exists [c], r. split_and!; [done| |done]. by constructor.
    + destruct H as (c1 & c2 & r0 & -> & H1 & H2 & r & -> & Hk).
      assert (c1 = 32) as -> by lia.
      exists [32; c2], r. split_and!; [done| |done]. by constructor.
  - intros (dt & r & -> & Hdt & Hk). unfold Date.re_d.
    destruct Hdt as [c H|c1 c2 H Hd|c H|c H|c H]; enum_chars;
      cbn -[isdecimal_cp]; rewrite ?Hd, ?isdecimal_cp_dot; cbn;
      by rewrite Hk.
Qed.

Lemma re_m_dot {A} s (k : str → str → option A) v :
  Date.re_m s (λ m r, Date.re_dot r (k m)) = Some v ↔
  ∃ mt r, s = mt ++ 46 :: r ∧ month_text mt ∧ k mt r = Some v.
Proof.
  split.
  - unfold Date.re_m. rewrite !alt_Some, !two_Some, one_Some.
    setoid_rewrite re_dot_Some. setoid_rewrite between_spec.
    intros [H|[_ [H|[_ H]]]].
    + destruct H as (c1 & c2 & r0 & -> & H1 & H2 & r & -> & Hk).
      assert (c1 = 49) as -> by lia.
      exists [49; c2], r. split_and!; [done| |done]. by constructor.
    + destruct H as (c1 & c2 & r0 & -> & H1 & H2 & r & -> & Hk).
      assert (c1 = 48) as -> by lia.
      exists [48; c2], r. split_and!; [done| |done]. by constructor.
    + destruct H as (c & r0 & -> & H1 & r & -> & Hk).
      exists [c], r. split_and!; [done| |done]. by constructor.
  - intros (mt & r & -> & Hmt & Hk). unfold Date.re_m.
    destruct Hmt as [c H|c H|c H]; enum_chars; cbn; by rewrite Hk.
Qed.

Lemma re_Y_Some {A} s (k : str → str → option A) v :
  Date.re_Y s k = Some v ↔
  ∃ yt r, s = yt ++ r ∧ year_text yt ∧ k yt r = Some v.
Proof.
  split.
  - destruct s as [|a [|b [|c [|d r]]]]; try done. unfold Date.re_Y.
    destruct (isdecimal_cp a && isdecimal_cp b && isdecimal_cp c
              && isdecimal_cp d) eqn:E; [|done].
    apply andb_true_iff in E as [E Ed]. apply andb_true_iff in E as [E Ec].
    apply andb_true_iff in E as [Ea Eb].
    intros Hk. exists [a; b; c; d], r. split_and!; [done| |done].
    by constructor.
  - intros (yt & r & -> & Hyt & Hk). destruct Hyt as [a b c d Ha Hb Hc Hd].
    unfold Date.re_Y. cbn [app]. by rewrite Ha, Hb, Hc, Hd.
Qed.

Lemma re_match_Some s dt mt yt rest :
  Date.re_match s = Some (dt, mt, yt, rest) ↔
  s = dt ++ lit "." ++ mt ++ lit "." ++ yt ++ rest
  ∧ day_text dt ∧ month_text mt ∧ year_text yt.
Proof.
  unfold Date.re_match.
  rewrite (re_d_dot s (λ d r, Date.re_m r (λ m r, Date.re_dot r (λ r,
             Date.re_Y r (λ y r, Some (d, m, y, r)))))).
  setoid_rewrite (re_m_dot _ (λ m r, Date.re_Y r (λ y r, Some (_, m, y, r)))).
  setoid_rewrite re_Y_Some. split.
  - intros (dt' & r1 & -> & Hd & mt' & r2 & -> & Hm & yt' & r3 & -> & Hy & E).
    by simplify_eq.
  - intros (-> & Hd & Hm & Hy).
    exists dt, (mt ++ lit "." ++ yt ++ rest). split_and!; [done..|].
    exists mt, (yt ++ rest). split_and!; [done..|].
    by exists yt, rest.
Qed.

(** *** Parsing *)

Lemma new_Ok y m dd d :
  Date.new y m dd = Ok d ↔
  d = Date.mk y m dd ∧ Date.check_date_fields y m dd = true.
Proof.
  unfold Date.new. destruct (Date.check_date_fields y m dd).
  - split; [by intros [= <-]|by intros [-> _]].
  - split; [done|by intros [_ ?]].
Qed.

Lemma strptime_dmy_Ok s d : Date.strptime_dmy s = Ok d ↔ date_text s d.
Proof.
  unfold Date.strptime_dmy, date_text. split.
  - destruct (Date.re_match s) as [[[[dt mt] yt] [|c rest]]|] eqn:E;
      [|done..].
    apply re_match_Some in E as (-> & Hd & Hm & Hy).
    destruct (int yt) as [y|] eqn:Ey; [|done].
    destruct (int mt) as [m|] eqn:Em; [|done].
    destruct (int dt) as [dd|] eqn:Ed; [|done].
    simpl. intros [-> Hc]%new_Ok. exists dt, mt, yt.
    by rewrite app_nil_r.
  - intros (dt & mt & yt & -> & Hd & Hm & Hy & Ed & Em & Ey & Hc).
    assert (Date.re_match (dt ++ lit "." ++ mt ++ lit "." ++ yt)
            = Some (dt, mt, yt, [])) as ->.
    { apply re_match_Some. by rewrite app_nil_r. }
    rewrite Ey, Em, Ed. simpl. apply new_Ok. by destruct d.
Qed.

Lemma Birthday_init_Ok s d :
  Birthday.init s = Ok (Birthday.mk d) ↔ date_text s d.
Proof.
  rewrite <- strptime_dmy_Ok. unfold Birthday.init.
  destruct (Date.strptime_dmy s) as [d'|[]]; split; congruence.
Qed.

Lemma days_in_month_le y m : Date.days_in_month y m ≤ 31.
Proof.
  unfold Date.days_in_month. destruct (_ && _); [lia|].
  generalize (N.to_nat m). intros k.
  do 13 (destruct k as [|k]; [simpl; lia|]). destruct k; simpl; lia.
Qed.

Lemma day_text_fmt2 dd : 1 ≤ dd ≤ 31 → day_text (Date.fmt2 dd).
Proof.
  intros H. destruct dd as [|p]; [lia|].
  do 5 (try (destruct p as [p|p|]); try lia);
    first [ by apply day_thirties | by apply day_tens | by apply day_zero ].
Qed.

Lemma month_text_fmt2 m : 1 ≤ m ≤ 12 → month_text (Date.fmt2 m).
Proof.
  intros H. destruct m as [|p]; [lia|].
  do 4 (try (destruct p as [p|p|]); try lia);
    first [ by apply month_tens | by apply month_zero ].
Qed.

Lemma year_text_fmt4 y : year_text (Date.fmt4 y).
Proof. constructor; apply isdecimal_cp_ascii, digit_range. Qed.

Lemma check_date_fields_bounds y m dd :
  Date.check_date_fields y m dd = true →
  1 ≤ y ≤ 9999 ∧ 1 ≤ m ≤ 12 ∧ 1 ≤ dd ≤ 31.
Proof.
  unfold Date.check_date_fields. rewrite !andb_true_iff, !N.leb_le.
  pose proof (days_in_month_le y m). lia.
Qed.

Lemma DDMMYYYY_date_text s d : DDMMYYYY s d → date_text s d.
Proof.
  intros [Hc ->]. pose proof (check_date_fields_bounds _ _ _ Hc) as (?&?&?).
  exists (Date.fmt2 (Date.day d)), (Date.fmt2 (Date.month d)),
    (Date.fmt4 (Date.year d)).
  split_and!;
    [done|by apply day_text_fmt2|by apply month_text_fmt2|
     apply year_text_fmt4|apply int_fmt2; lia|apply int_fmt2; lia|
     apply int_fmt4; lia|done].
Qed.

Lemma strip_zeros_cons c r : c ≠ 48 → Date.strip_zeros (c :: r) = c :: r.
Proof.
  intros Hc. destruct c as [|q]; [done|].
  do 6 (destruct q as [q|q|]; try done).
Qed.

Lemma fmt_Y_four pad_year y :
  pad_year = true ∨ 1000 ≤ y < 10000 → Date.fmt_Y pad_year y = Date.fmt4 y.
Proof.
  unfold Date.fmt_Y. destruct pad_year; [done|]. intros [?|[H1 H2]]; [done|].
  unfold Date.fmt4. apply strip_zeros_cons. unfold Date.digit.
  assert (y / 1000 < 10) by (apply N.Div0.div_lt_upper_bound; lia).
  assert (1 ≤ y / 1000) by (apply N.div_le_lower_bound; lia).
  rewrite N.mod_small by done. lia.
Qed.

(** C3, as the code has it: a text in the form DD.MM.YYYY of a real date
    makes a Birthday holding that date, and formatting it with %d.%m.%Y
    gives the text back where the year is written with four digits, which
    is always so from year 1000 on and, below, where the platform pads %Y;
    construction succeeds exactly on the texts that read as a real date
    with day and month fields of one or two characters and a year of four
    decimal digits, and raises ValueError on every other text, such as
    31.02.2024. *)
Theorem Birthday_init_spec (pad_year : bool) (s : str) (d : Date.date) :
  (DDMMYYYY s d →
     Birthday.init s = Ok (Birthday.mk d)
     ∧ (pad_year = true ∨ 1000 ≤ Date.year d →
        Date.strftime_dmy pad_year d = s))
  ∧ (Birthday.init s = Ok (Birthday.mk d) ↔ date_text s d)
  ∧ ((∀ d', ¬ date_text s d') → Birthday.init s = Raise ValueError)
  ∧ Birthday.init (lit "31.02.2024") = Raise ValueError.
Proof.
  split_and!.
  - intros H. split; [by apply Birthday_init_Ok, DDMMYYYY_date_text|].
    destruct H as [Hc ->]. intros Hy. unfold Date.strftime_dmy.
    rewrite fmt_Y_four; [done|].
    apply check_date_fields_bounds in Hc. destruct Hy; [by left|right; lia].
  - apply Birthday_init_Ok.
  - intros H. destruct (Birthday.init s) as [[d']|e] eqn:E.
    + by apply Birthday_init_Ok, H in E.
    + by apply Birthday_init_exn in E as ->.
  - reflexivity.
Qed.

Lemma Birthday_init_spec_witness :
  Birthday.init (lit "25.12.2023") = Ok (Birthday.mk (Date.mk 2023 12 25))
  ∧ Date.strftime_dmy false (Date.mk 2023 12 25) = lit "25.12.2023".
Proof.
  destruct (Birthday_init_spec false (lit "25.12.2023") (Date.mk 2023 12 25))
    as [H _].
  destruct H as [H1 H2]; [by split|]. split; [exact H1|].
  apply H2. right. simpl. lia.
Defined.

(** C3, as worded, fails: "1.2.2024" is not in the form DD.MM.YYYY and
    makes a Birthday all the same; and where the C library does not pad
    %Y, "01.01.0999" is in the form, is accepted, and comes back as
    "01.01.999". *)
Lemma Birthday_init_short_fields :
  (¬ ∃ d, DDMMYYYY (lit "1.2.2024") d)
  ∧ Birthday.init (lit "1.2.2024") = Ok (Birthday.mk (Date.mk 2024 2 1))
  ∧ DDMMYYYY (lit "01.01.0999") (Date.mk 999 1 1)
  ∧ Birthday.init (lit "01.01.0999") = Ok (Birthday.mk (Date.mk 999 1 1))
  ∧ Date.strftime_dmy false (Date.mk 999 1 1) = lit "01.01.999".
Proof.
  split_and!; [|reflexivity|by split|reflexivity|reflexivity].
  intros (d & _ & H). apply (f_equal length) in H. done.
Qed.

(** ** The rows of the birthday report *)

(** *** The order of dates *)

Lemma ltb_spec a b :
  Date.ltb a b = true ↔
  Date.year a < Date.year b
  ∨ (Date.year a = Date.year b
     ∧ (Date.month a < Date.month b
        ∨ (Date.month a = Date.month b ∧ Date.day a < Date.day b))).
Proof.
  unfold Date.ltb.
  rewrite !orb_true_iff, !andb_true_iff, orb_true_iff, andb_true_iff,
    !N.ltb_lt, !N.eqb_eq.
  done.
Qed.

Lemma leb_spec a b :
  Date.leb a b = true ↔
  Date.year a < Date.year b
  ∨ (Date.year a = Date.year b
     ∧ (Date.month a < Date.month b
        ∨ (Date.month a = Date.month b ∧ Date.day a ≤ Date.day b))).
Proof.
  unfold Date.leb. rewrite negb_true_iff, <- not_true_iff_false, ltb_spec. lia.
Qed.

Lemma tomorrow_lt d d' : Date.tomorrow d = Ok d' → Date.ltb d d' = true.
Proof.
  unfold Date.tomorrow. rewrite ltb_spec.
  destruct (_ <? _); [intros [= <-]; simpl; lia|].
  destruct (Date.month d <? 12) eqn:Em; [intros [= <-]; simpl; lia|].
  destruct (Date.year d <? 9999); [intros [= <-]; simpl; lia|done].
Qed.

Lemma add_days_le n : ∀ d d', Date.add_days d n = Ok d' → Date.leb d d' = true.
Proof.
  induction n as [|n IH]; intros d d'; simpl.
  - intros [= <-]. apply leb_spec. lia.
  - destruct (Date.tomorrow d) as [d1|] eqn:E; [|done]. simpl. intros H.
    apply IH in H. apply tomorrow_lt in E.
    apply leb_spec. apply leb_spec in H. apply ltb_spec in E. lia.
Qed.

Lemma add_days_succ n : ∀ d,
  Date.add_days d (S n) = d' ← Date.add_days d n; Date.tomorrow d'.
Proof.
  induction n as [|n IH]; intros d.
  - simpl. by destruct (Date.tomorrow d).
  - change (Date.add_days d (S (S n)))
      with (d1 ← Date.tomorrow d; Date.add_days d1 (S n)).
    destruct (Date.tomorrow d) as [d1|] eqn:E; [|by simpl; rewrite E].
    simpl. rewrite E. simpl. apply IH.
Qed.

(** The day after the limit of the window is outside it. *)
Lemma add_days_8_after d limit d' :
  Date.add_days d 7 = Ok limit → Date.add_days d 8 = Ok d' →
  Date.leb d' limit = false.
Proof.
  intros H7 H8. rewrite add_days_succ, H7 in H8. simpl in H8.
  apply tomorrow_lt in H8. unfold Date.leb. by rewrite H8.
Qed.

(** *** [strftime("%Y.%m.%d")] tells dates apart *)

Lemma strip_zeros_Forall (P : N → Prop) s :
  Forall P s → Forall P (Date.strip_zeros s).
Proof.
  induction 1 as [|c r Hc Hr IH]; [done|].
  destruct (decide (c = 48)) as [->|Hn].
  - destruct r as [|c' r']; [by constructor|]. exact IH.
  - rewrite strip_zeros_cons by done. by constructor.
Qed.

Lemma int_strip_zeros s :
  Forall (λ c, 48 ≤ c ≤ 57) s → int (Date.strip_zeros s) = int s.
Proof.
  induction 1 as [|c r Hc Hr IH]; [done|].
  destruct (decide (c = 48)) as [->|Hn].
  - destruct r as [|c' r']; [done|].
    change (Date.strip_zeros (48 :: c' :: r'))
      with (Date.strip_zeros (c' :: r')).
    rewrite IH. apply Forall_cons in Hr as [Hc' _].
    rewrite (int_cons 48) by done. rewrite (int_cons c') by lia. done.
  - by rewrite strip_zeros_cons.
Qed.

Lemma fmt4_digits y : Forall (λ c, 48 ≤ c ≤ 57) (Date.fmt4 y).
Proof. repeat constructor; apply digit_range. Qed.

Lemma fmt_Y_digits pad_year y :
  Forall (λ c, 48 ≤ c ≤ 57) (Date.fmt_Y pad_year y).
Proof.
  unfold Date.fmt_Y. destruct pad_year; [apply fmt4_digits|].
  apply strip_zeros_Forall, fmt4_digits.
Qed.

Lemma int_fmt_Y pad_year y : y < 10000 → int (Date.fmt_Y pad_year y) = Ok y.
Proof.
  intros Hy. unfold Date.fmt_Y. destruct pad_year; [by apply int_fmt4|].
  rewrite int_strip_zeros by apply fmt4_digits. by apply int_fmt4.
Qed.

Lemma dot_split l1 : ∀ l2 r1 r2,
  Forall (λ c, 48 ≤ c ≤ 57) l1 → Forall (λ c, 48 ≤ c ≤ 57) l2 →
  l1 ++ 46 :: r1 = l2 ++ 46 :: r2 → l1 = l2 ∧ r1 = r2.
Proof.
  induction l1 as [|c l1 IH]; intros [|c' l2] r1 r2 H1 H2 E; simpl in E.
  - by injection E as ->.
  - injection E as <- _. apply Forall_cons in H2 as [? _]. lia.
  - injection E as -> _. apply Forall_cons in H1 as [? _]. lia.
  - injection E as -> E.
    apply Forall_cons in H1 as [_ H1]. apply Forall_cons in H2 as [_ H2].
    destruct (IH _ _ _ H1 H2 E) as [-> ->]. done.
Qed.

Lemma fmt2_inj m n : m < 100 → n < 100 → Date.fmt2 m = Date.fmt2 n → m = n.
Proof.
  intros Hm Hn E. apply (f_equal int) in E.
  rewrite !int_fmt2 in E by done. by injection E.
Qed.

Lemma strftime_ymd_inj pad_year a b :
  Date.check_date_fields (Date.year a) (Date.month a) (Date.day a) = true →
  Date.check_date_fields (Date.year b) (Date.month b) (Date.day b) = true →
  Date.strftime_ymd pad_year a = Date.strftime_ymd pad_year b → a = b.
Proof.
  intros (?&?&?)%check_date_fields_bounds (?&?&?)%check_date_fields_bounds.
  unfold Date.strftime_ymd. intros E.
  apply (dot_split _ _ _ _ (fmt_Y_digits _ _) (fmt_Y_digits _ _)) in E
    as [Ey E].
  apply (f_equal int) in Ey. rewrite !int_fmt_Y in Ey by lia.
  assert (Date.fmt2 (Date.month a) = Date.fmt2 (Date.month b)) as Em.
  { unfold Date.fmt2 in *. simpl in E. injection E. congruence. }
  assert (Date.fmt2 (Date.day a) = Date.fmt2 (Date.day b)) as Ed.
  { unfold Date.fmt2 in *. simpl in E. injection E. congruence. }
  apply fmt2_inj in Em; [|lia..]. apply fmt2_inj in Ed; [|lia..].
  destruct a, b. simpl in *. by simplify_eq.
Qed.

(** *** The loop of the report *)

Lemma occurrence_Ok today b occ :
  AddressBook.occurrence today b = Ok occ →
  Date.check_date_fields (Date.year occ) (Date.month occ) (Date.day occ)
  = true
  ∧ Date.month occ = Date.month b ∧ Date.day occ = Date.day b
  ∧ Date.year occ
    = (if Date.ltb (Date.mk (Date.year today) (Date.month b) (Date.day b))
            today
       then Date.year today + 1 else Date.year today)
  ∧ Date.leb today occ = true.
Proof.
  unfold AddressBook.occurrence, Date.replace_year.
  destruct (Date.new (Date.year today) (Date.month b) (Date.day b))
    as [this|] eqn:E; [|done].
  apply new_Ok in E as [-> Hc]. simpl.
  destruct (Date.ltb _ today) eqn:L.
  - intros [-> Hc']%new_Ok. split_and!; [done..|].
    apply leb_spec. simpl. lia.
  - intros [= <-]. split_and!; [done..|]. unfold Date.leb. by rewrite L.
Qed.

Lemma within_week_Ok today occ inside :
  AddressBook.within_week today occ = Ok inside →
  Date.leb today occ = true →
  ∃ limit, Date.add_days today 7 = Ok limit
           ∧ inside = Date.leb occ limit.
Proof.
  unfold AddressBook.within_week. intros H L. rewrite L in H.
  destruct (Date.add_days today 7) as [limit|]; [|done].
  exists limit. split; [done|]. by injection H.
Qed.

Lemma upcoming_from_Ok pad_year today records : ∀ acc res,
  AddressBook.upcoming_from pad_year today records acc = Ok res →
  (∀ r b, r ∈ records → ContactRecord.birthday r = Some b →
     ∃ occ inside,
       AddressBook.occurrence today (Birthday.value b) = Ok occ
       ∧ AddressBook.within_week today occ = Ok inside)
  ∧ (∀ e, e ∈ res ↔
       e ∈ acc
       ∨ ∃ r b occ,
           r ∈ records ∧ ContactRecord.birthday r = Some b
           ∧ AddressBook.occurrence today (Birthday.value b) = Ok occ
           ∧ AddressBook.within_week today occ = Ok true
           ∧ e = AddressBook.mk_entry (ContactRecord.name r)
                   (Date.strftime_ymd pad_year occ)).
Proof.
  induction records as [|r0 records IH]; intros acc res; simpl.
  - intros [= <-]. split.
    + intros r b Hr. by apply elem_of_nil in Hr.
    + intros e. split; [by left|]. intros [?|(r & ? & ? & Hr & _)]; [done|].
      by apply elem_of_nil in Hr.
  - destruct (ContactRecord.birthday r0) as [b0|] eqn:B0.
    + destruct (AddressBook.occurrence today (Birthday.value b0))
        as [occ0|] eqn:O0; simpl; [|done].
      destruct (AddressBook.within_week today occ0) as [inside0|] eqn:W0;
        simpl; [|done].
      intros H. apply IH in H as [Hall Hres]. split.
      * intros r b [->|Hr]%elem_of_cons Hb.
        -- rewrite B0 in Hb. injection Hb as <-. by exists occ0, inside0.
        -- by apply (Hall r b).
      * intros e. rewrite Hres. split.
        -- intros [He|(r & b & occ & Hr & Hb & Ho & Hw & ->)].
           ++ destruct inside0; [|by left].
              apply elem_of_app in He as [He|He]; [by left|].
              apply list_elem_of_singleton in He as ->. right.
              exists r0, b0, occ0. split_and!; [by left|done..].
           ++ right. exists r, b, occ. split_and!; [by right|done..].
        -- intros [He|(r & b & occ & [->|Hr]%elem_of_cons & Hb & Ho & Hw & ->)].
           ++ left. destruct inside0; [|done]. apply elem_of_app. by left.
           ++ rewrite B0 in Hb. injection Hb as <-.
              rewrite O0 in Ho. injection Ho as <-.
              rewrite W0 in Hw. injection Hw as ->.
              left. apply elem_of_app. right. by apply list_elem_of_singleton.
           ++ right. by exists r, b, occ.
    + intros H. apply IH in H as [Hall Hres]. split.
      * intros r b [->|Hr]%elem_of_cons Hb; [congruence|].
        by apply (Hall r b).
      * intros e. rewrite Hres. split.
        -- intros [He|(r & b & occ & Hr & Hb & Ho & Hw & ->)]; [by left|].
           right. exists r, b, occ. split_and!; [by right|done..].
        -- intros [He|(r & b & occ & [->|Hr]%elem_of_cons & Hb & Ho & Hw & ->)];
             [by left|congruence|].
           right. by exists r, b, occ.
Qed.

(** C1, as the code has it: whenever the report returns its rows, every
    record with a birthday has an occurrence date, this year's month and
    day, moved to next year when that date is strictly before today, and
    the record's row (name, date as YYYY.MM.DD) is among the rows if and
    only if the occurrence lies in [today, today + 7 days]; so a birthday
    falling today is in, and one falling on today + 8 days is out. *)
Theorem upcoming_birthdays_spec (pad_year : bool) (today : Date.date)
    (book : AddressBook.t) (res : list AddressBook.entry) :
  AddressBook.get_upcoming_birthdays pad_year today book = Ok res →
  ∀ r b, r ∈ AddressBook.contacts book →
    ContactRecord.birthday r = Some b →
    ∃ occ limit,
      let row := AddressBook.mk_entry (ContactRecord.name r)
                   (Date.strftime_ymd pad_year occ) in
      AddressBook.occurrence today (Birthday.value b) = Ok occ
      ∧ Date.month occ = Date.month (Birthday.value b)
      ∧ Date.day occ = Date.day (Birthday.value b)
      ∧ Date.year occ
        = (if Date.ltb (Date.mk (Date.year today)
                          (Date.month (Birthday.value b))
                          (Date.day (Birthday.value b))) today
           then Date.year today + 1 else Date.year today)
      ∧ Date.add_days today 7 = Ok limit
      ∧ (row ∈ res ↔
         Date.leb today occ = true ∧ Date.leb occ limit = true)
      ∧ (occ = today → row ∈ res)
      ∧ (Date.add_days today 8 = Ok occ → row ∉ res).
Proof.
  unfold AddressBook.get_upcoming_birthdays.
  intros [Hall Hres]%upcoming_from_Ok r b Hr Hb.
  destruct (Hall r b Hr Hb) as (occ & inside & Ho & Hw).
  pose proof (occurrence_Ok _ _ _ Ho) as (Hc & Hm & Hd & Hy & Hge).
  destruct (within_week_Ok _ _ _ Hw Hge) as (limit & Hl & ->).
  assert (AddressBook.mk_entry (ContactRecord.name r)
            (Date.strftime_ymd pad_year occ) ∈ res
          ↔ Date.leb today occ = true ∧ Date.leb occ limit = true) as Hrow.
  { rewrite Hres. split.
    - intros [H|(r' & b' & occ' & Hr' & Hb' & Ho' & Hw' & E)].
      { by apply elem_of_nil in H. }
      injection E as _ E.
      pose proof (occurrence_Ok _ _ _ Ho') as (Hc' & _ & _ & _ & Hge').
      apply strftime_ymd_inj in E as ->; [|done..].
      destruct (within_week_Ok _ _ _ Hw' Hge') as (limit' & Hl' & E).
      rewrite Hl in Hl'. injection Hl' as <-. done.
    - intros [_ Hin]. right. exists r, b, occ.
      split_and!; [done..| |done]. by rewrite Hw, Hin. }
  exists occ, limit. simpl. split_and!; [done..| |].
  - intros ->. apply Hrow. split; [done|]. by apply (add_days_le 7).
  - intros H8 Hin. apply Hrow in Hin as [_ Hin].
    by rewrite (add_days_8_after _ _ _ Hl H8) in Hin.
Qed.

Lemma upcoming_birthdays_spec_witness :
  let today := Date.mk 2024 12 28 in
  let r := ContactRecord.mk (lit "Ann") [] (Some (Birthday.mk (Date.mk 2000 1 1))) in
  ∃ limit,
    Date.add_days today 7 = Ok limit
    ∧ (AddressBook.mk_entry (lit "Ann") (lit "2025.01.01")
         ∈ [AddressBook.mk_entry (lit "Ann") (lit "2025.01.01")]
       ↔ Date.leb today (Date.mk 2025 1 1) = true
         ∧ Date.leb (Date.mk 2025 1 1) limit = true).
Proof.
  intros today r.
  destruct (upcoming_birthdays_spec false today (AddressBook.mk [r])
              [AddressBook.mk_entry (lit "Ann") (lit "2025.01.01")]
              eq_refl r (Birthday.mk (Date.mk 2000 1 1)))
    as (occ & limit & Ho & _ & _ & _ & Hl & Hrow & _).
  - apply list_elem_of_In. by left.
  - reflexivity.
  - exists limit. split; [exact Hl|].
    injection Ho as <-. exact Hrow.
Defined.

(** C1, as worded, fails where the report raises: with a leap-day
    birthday in the book on 1 March 2023, Bob's birthday on 2 March lies
    in the window and no rows are returned at all; and within a week of
    [date.max] the end of the window does not exist. *)
Lemma upcoming_birthdays_no_rows :
  let ann := ContactRecord.mk (lit "Ann") []
               (Some (Birthday.mk (Date.mk 2000 2 29))) in
  let bob := ContactRecord.mk (lit "Bob") []
               (Some (Birthday.mk (Date.mk 1990 3 2))) in
  let today := Date.mk 2023 3 1 in
  AddressBook.occurrence today (Date.mk 1990 3 2) = Ok (Date.mk 2023 3 2)
  ∧ AddressBook.within_week today (Date.mk 2023 3 2) = Ok true
  ∧ AddressBook.get_upcoming_birthdays true today (AddressBook.mk [ann; bob])
    = Raise ValueError
  ∧ AddressBook.get_upcoming_birthdays false today (AddressBook.mk [ann; bob])
    = Raise ValueError
  ∧ AddressBook.get_upcoming_birthdays false (Date.mk 9999 12 30)
      (AddressBook.mk [ContactRecord.mk (lit "Eve") []
                         (Some (Birthday.mk (Date.mk 2000 12 31)))])
    = Raise OverflowError.
Proof. split_and!; reflexivity. Qed.

(** * Further properties: the handlers, the reading of lines, whole runs *)

(** ** The book as a store of records *)

Section Store.

Variable lower : str → str.

Lemma first_answer_or_none (name : str) (records : list ContactRecord.t) :
  Forall (λ r, ¬ answers lower name r) records
  ∨ ∃ pre r post, records = pre ++ r :: post
      ∧ Forall (λ r', ¬ answers lower name r') pre
      ∧ answers lower name r.
Proof.
  induction records as [|r0 records IH]; [by left|].
  destruct (decide (lower (ContactRecord.name r0) = lower name)) as [H0|H0].
  - right. by exists [], r0, records.
  - destruct IH as [IH|(pre & r & post & -> & Hpre & Hr)].
    + left. by constructor.
    + right. exists (r0 :: pre), r, post. split_and!; [done| |done].
      by constructor.
Qed.

Lemma find_index_from_none i records name :
  Forall (λ r, ¬ answers lower name r) records →
  Commands.find_index_from lower i records name = None.
Proof.
  intros H. revert i. induction H as [|r records Hr _ IH]; intros i; [done|].
  simpl. unfold answers in Hr. by rewrite decide_False.
Qed.

Lemma find_index_from_first i pre r post name :
  Forall (λ r', ¬ answers lower name r') pre → answers lower name r →
  Commands.find_index_from lower i (pre ++ r :: post) name
  = Some (i + length pre)%nat.
Proof.
  intros H Hr. revert i. induction H as [|r0 pre H0 _ IH]; intros i; simpl.
  - unfold answers in Hr. rewrite decide_True by done. f_equal. lia.
  - unfold answers in H0. rewrite decide_False by done. rewrite IH.
    f_equal. lia.
Qed.

Lemma find_none (book : AddressBook.t) name :
  Forall (λ r, ¬ answers lower name r) (AddressBook.contacts book) →
  AddressBook.find lower book name = None.
Proof. intros H. by apply find_in_None. Qed.

Lemma find_first (book : AddressBook.t) pre r post name :
  AddressBook.contacts book = pre ++ r :: post →
  Forall (λ r', ¬ answers lower name r') pre → answers lower name r →
  AddressBook.find lower book name = Some r.
Proof.
  intros Hc Hpre Hr. apply find_in_Some. by exists pre, post.
Qed.

Lemma on_record_middle {A} (m : ContactRecord.method A) book pre r post :
  AddressBook.contacts book = pre ++ r :: post →
  Commands.on_record (length pre) m book
  = (AddressBook.mk (pre ++ fst (m r) :: post), snd (m r)).
Proof.
  intros Hc. unfold Commands.on_record. rewrite Hc.
  rewrite list_lookup_middle by done. destruct (m r) as [r' out]. simpl.
  by rewrite (insert_app_r_alt pre), Nat.sub_diag by lia.
Qed.

End Store.

Section HandlerFacts.

Variable lower : str → str.

Lemma find_in_app l1 l2 name :
  AddressBook.find_in lower (l1 ++ l2) name
  = match AddressBook.find_in lower l1 name with
    | Some r => Some r
    | None => AddressBook.find_in lower l2 name
    end.
Proof.
  induction l1 as [|r0 l1 IH]; simpl; [done|]. by destruct (decide _).
Qed.

(** X1: after a record is appended, a lookup still answers with the first
    record it found before; only a name no stored record answers to finds
    the new record.  A second record under a name already in the book is
    never found. *)
Theorem find_add_record (book : AddressBook.t) (r : ContactRecord.t)
    (name : str) :
  AddressBook.find lower (AddressBook.add_record r book) name
  = match AddressBook.find lower book name with
    | Some r' => Some r'
    | None =>
        if decide (lower (ContactRecord.name r) = lower name)
        then Some r else None
    end.
Proof. unfold AddressBook.find, AddressBook.add_record. simpl. apply find_in_app. Qed.

Lemma validate_nonempty phone : Phone.validate phone = true → phone ≠ [].
Proof. by intros H ->. Qed.

Lemma book_eta (book : AddressBook.t) :
  AddressBook.mk (AddressBook.contacts book) = book.
Proof. by destruct book. Qed.

Lemma add_contact_new (book : AddressBook.t) (name phone : str)
    (extra : list str) :
  Phone.validate phone = true →
  Forall (λ r, lower (ContactRecord.name r) ≠ lower name)
    (AddressBook.contacts book) →
  Commands.add_contact lower (name :: phone :: extra) book
  = (AddressBook.mk
       (AddressBook.contacts book
        ++ [ContactRecord.mk name [Phone.mk phone] None]),
     Ok (lit "Contact added.")).
Proof.
  intros Hv Hnone. pose proof (validate_nonempty _ Hv) as Hne.
  unfold Commands.add_contact, Commands.decorated, Commands.find_index.
  rewrite find_index_from_none by done.
  destruct phone as [|c phone]; [done|].
  rewrite (on_record_middle _ _ (AddressBook.contacts book)
             (ContactRecord.init name) []) by done.
  unfold ContactRecord.add_phone. by rewrite (Phone_init_valid _ Hv).
Qed.

Lemma add_contact_existing (book : AddressBook.t) (name phone : str)
    (extra : list str) pre r post :
  Phone.validate phone = true →
  AddressBook.contacts book = pre ++ r :: post →
  Forall (λ r', lower (ContactRecord.name r') ≠ lower name) pre →
  lower (ContactRecord.name r) = lower name →
  Commands.add_contact lower (name :: phone :: extra) book
  = (AddressBook.mk
       (pre
        ++ ContactRecord.mk (ContactRecord.name r)
             (ContactRecord.phones r ++ [Phone.mk phone])
             (ContactRecord.birthday r)
        :: post),
     Ok (lit "Contact updated.")).
Proof.
  intros Hv Hc Hpre Hr. pose proof (validate_nonempty _ Hv) as Hne.
  unfold Commands.add_contact, Commands.decorated, Commands.find_index.
  rewrite Hc at 1.
  rewrite (find_index_from_first lower 0 pre r post) by done.
  destruct phone as [|c phone]; [done|].
  rewrite (on_record_middle _ _ pre r post) by done.
  unfold ContactRecord.add_phone. by rewrite (Phone_init_valid _ Hv).
Qed.

(** X2: [add_contact] with a valid phone.  Under a name no record answers
    to, one record with that name and that one phone is appended and the
    answer is "Contact added."; otherwise the phone is appended to the
    first record answering to the name, nothing else changes, and the
    answer is "Contact updated.".  Arguments after the second are
    ignored. *)
Theorem add_contact_adds_phone (book : AddressBook.t) (name phone : str)
    (extra : list str) :
  Phone.validate phone = true →
  (Forall (λ r, lower (ContactRecord.name r) ≠ lower name)
     (AddressBook.contacts book) →
   Commands.add_contact lower (name :: phone :: extra) book
   = (AddressBook.mk
        (AddressBook.contacts book
         ++ [ContactRecord.mk name [Phone.mk phone] None]),
      Ok (lit "Contact added.")))
  ∧ (∀ pre r post,
       AddressBook.contacts book = pre ++ r :: post →
       Forall (λ r', lower (ContactRecord.name r') ≠ lower name) pre →
       lower (ContactRecord.name r) = lower name →
       Commands.add_contact lower (name :: phone :: extra) book
       = (AddressBook.mk
            (pre
             ++ ContactRecord.mk (ContactRecord.name r)
                  (ContactRecord.phones r ++ [Phone.mk phone])
                  (ContactRecord.birthday r)
             :: post),
          Ok (lit "Contact updated."))).
Proof.
  intros Hv. split.
  - by apply add_contact_new.
  - intros pre r post. by apply add_contact_existing.
Qed.

(** X3: [add_contact] with a phone that is refused answers "Please give me
    proper value."; under a name already in the book the book is as it
    was, but under a new name the record has been created and stays in
    the book, without a phone. *)
Theorem add_contact_invalid (book : AddressBook.t) (name phone : str)
    (extra : list str) :
  Phone.validate phone = false → phone ≠ [] →
  Commands.add_contact lower (name :: phone :: extra) book
  = (match AddressBook.find lower book name with
     | Some _ => book
     | None => AddressBook.add_record (ContactRecord.init name) book
     end,
     Ok (lit "Please give me proper value.")).
Proof.
  intros Hv Hne.
  unfold Commands.add_contact, Commands.decorated, Commands.find_index.
  destruct phone as [|c phone]; [done|].
  destruct (first_answer_or_none lower name (AddressBook.contacts book))
    as [Hnone|(pre & r & post & Hc & Hpre & Hr)].
  - rewrite find_index_from_none, find_none by done.
    rewrite (on_record_middle _ _ (AddressBook.contacts book)
               (ContactRecord.init name) []) by done.
    unfold ContactRecord.add_phone. by rewrite (Phone_init_invalid _ Hv).
  - rewrite (find_first lower book pre r post) by done. rewrite Hc at 1.
    rewrite (find_index_from_first lower 0 pre r post) by done.
    rewrite (on_record_middle _ _ pre r post) by done.
    unfold ContactRecord.add_phone. rewrite (Phone_init_invalid _ Hv).
    simpl. by rewrite <- Hc, book_eta.
Qed.
End HandlerFacts.

Section HandlerFacts2.

Variable lower : str → str.
Variable pad_year : bool.

(** X4: a wrong number of arguments never changes the book.  [add] with
    fewer than two, [change] with other than three, [phone] with other
    than one and [add-birthday] with other than two arguments answer
    "Please give me proper value."; [show-birthday] without a name
    answers "Enter the argument for the command.". *)
Theorem wrong_argument_count (args : list str) (book : AddressBook.t) :
  ((length args < 2)%nat →
     Commands.add_contact lower args book
     = (book, Ok (lit "Please give me proper value.")))
  ∧ (length args ≠ 3%nat →
     Commands.change_contact lower args book
     = (book, Ok (lit "Please give me proper value.")))
  ∧ (length args ≠ 1%nat →
     Commands.show_phone lower args book
     = (book, Ok (lit "Please give me proper value.")))
  ∧ (length args ≠ 2%nat →
     Commands.add_birthday lower args book
     = (book, Ok (lit "Please give me proper value.")))
  ∧ (args = [] →
     Handlers.show_birthday lower pad_year args book
     = Ok (lit "Enter the argument for the command.")).
Proof.
  split_and!.
  - destruct args as [|a [|b args]]; simpl; [done|done|lia].
  - destruct args as [|a [|b [|c [|d args]]]]; simpl; done.
  - destruct args as [|a [|b args]]; simpl; done.
  - destruct args as [|a [|b [|c args]]]; simpl; done.
  - by intros ->.
Qed.

(** X5: the outcomes of [change_contact name old new].  An unknown name
    and an old phone the record does not have both answer "Contact not
    found."; a refused new phone answers "Please give me proper value.";
    in these cases the book is as it was.  Otherwise the first phone equal
    to the old one, in the first record answering to the name, is
    replaced, and nothing else. *)
Theorem change_contact_outcomes (book : AddressBook.t)
    (name old_phone new_phone : str) :
  (Forall (λ r, lower (ContactRecord.name r) ≠ lower name)
     (AddressBook.contacts book) →
   Commands.change_contact lower [name; old_phone; new_phone] book
   = (book, Ok (lit "Contact not found.")))
  ∧ (∀ pre r post,
       AddressBook.contacts book = pre ++ r :: post →
       Forall (λ r', lower (ContactRecord.name r') ≠ lower name) pre →
       lower (ContactRecord.name r) = lower name →
       (Forall (λ p, Phone.value p ≠ old_phone) (ContactRecord.phones r) →
        Commands.change_contact lower [name; old_phone; new_phone] book
        = (book, Ok (lit "Contact not found.")))
       ∧ (∀ before p after,
            ContactRecord.phones r = before ++ p :: after →
            Forall (λ q, Phone.value q ≠ old_phone) before →
            Phone.value p = old_phone →
            Commands.change_contact lower [name; old_phone; new_phone] book
            = if Phone.validate new_phone
              then (AddressBook.mk
                      (pre
                       ++ ContactRecord.mk (ContactRecord.name r)
                            (before ++ Phone.mk new_phone :: after)
                            (ContactRecord.birthday r)
                       :: post),
                    Ok (lit "Phone number updated."))
              else (book, Ok (lit "Please give me proper value.")))).
Proof.
  unfold Commands.change_contact, Commands.decorated, Commands.find_index.
  split.
  - intros Hnone. by rewrite find_index_from_none.
  - intros pre r post Hc Hpre Hr.
    assert (Commands.find_index_from lower 0 (AddressBook.contacts book) name
            = Some (length pre)) as ->.
    { rewrite Hc. by rewrite (find_index_from_first lower 0 pre r post). }
    rewrite (on_record_middle _ _ pre r post) by done.
    unfold ContactRecord.change_phone. split.
    + intros Hno. rewrite change_phone_from_no_match by done. simpl.
      by rewrite <- Hc, book_eta.
    + intros before p after Hp Hbefore Hold.
      pose proof (change_phone_from_match 0 before p after old_phone
                    new_phone r Hbefore Hold) as Hloop.
      rewrite <- Hp in Hloop. rewrite Hloop. unfold Phone.init.
      destruct (Phone.validate new_phone); simpl.
      * by rewrite Hp, (insert_app_r_alt before), Nat.sub_diag by lia.
      * by rewrite <- Hc, book_eta.
Qed.

(** X6: a birthday typed as DD.MM.YYYY for a known name is stored in the
    record found, and [show_birthday] then shows the text as it was typed
    (for years from 1000 on, or where %Y is padded). *)
Theorem add_birthday_then_show (book : AddressBook.t) (name s : str)
    (d : Date.date) (r : ContactRecord.t) :
  DDMMYYYY s d →
  pad_year = true ∨ 1000 ≤ Date.year d →
  AddressBook.find lower book name = Some r →
  let after := Commands.add_birthday lower [name; s] book in
  snd after = Ok (lit "Birthday for " ++ name ++ lit " added.")
  ∧ AddressBook.find lower (fst after) name
    = Some (ContactRecord.mk (ContactRecord.name r) (ContactRecord.phones r)
              (Some (Birthday.mk d)))
  ∧ Handlers.show_birthday lower pad_year [name] (fst after)
    = Ok (name ++ lit "'s birthday is on " ++ s ++ lit ".").
Proof.
  intros Hs Hy Hfind.
  apply find_in_Some in Hfind as (pre & post & Hc & Hr & Hpre).
  assert (Commands.add_birthday lower [name; s] book
          = (AddressBook.mk
               (pre ++ ContactRecord.mk (ContactRecord.name r)
                         (ContactRecord.phones r) (Some (Birthday.mk d))
                :: post),
             Ok (lit "Birthday for " ++ name ++ lit " added."))) as ->.
  { unfold Commands.add_birthday, Commands.decorated, Commands.find_index.
    rewrite Hc at 1.
    rewrite (find_index_from_first lower 0 pre r post) by done.
    rewrite (on_record_middle _ _ pre r post) by done.
    unfold ContactRecord.add_birthday.
    by rewrite (proj2 (Birthday_init_Ok s d) (DDMMYYYY_date_text _ _ Hs)). }
  simpl. split; [done|].
  assert (AddressBook.find lower
            (AddressBook.mk
               (pre ++ ContactRecord.mk (ContactRecord.name r)
                         (ContactRecord.phones r) (Some (Birthday.mk d))
                :: post)) name
          = Some (ContactRecord.mk (ContactRecord.name r)
                    (ContactRecord.phones r) (Some (Birthday.mk d)))) as Hf.
  { by eapply find_first. }
  split; [done|]. unfold Handlers.show_birthday. rewrite Hf. simpl.
  destruct Hs as [Hcheck ->]. unfold Date.strftime_dmy.
  rewrite fmt_Y_four; [done|].
  apply check_date_fields_bounds in Hcheck. destruct Hy; [by left|right; lia].
Qed.

(** X7: after [add_contact] with a valid phone, [show_phone] for the same
    name lists the phones the name had before, in their order, followed
    by the new one. *)
Theorem add_contact_then_show_phone (book : AddressBook.t)
    (name phone : str) (extra : list str) :
  Phone.validate phone = true →
  let after := Commands.add_contact lower (name :: phone :: extra) book in
  Commands.show_phone lower [name] (fst after)
  = (fst after,
     Ok (name ++ lit "'s phone(s): "
         ++ join (lit ", ")
              (match AddressBook.find lower book name with
               | Some r => map Phone.value (ContactRecord.phones r)
               | None => []
               end ++ [phone]))).
Proof.
  intros Hv.
  destruct (first_answer_or_none lower name (AddressBook.contacts book))
    as [Hnone|(pre & r & post & Hc & Hpre & Hr)].
  - rewrite (add_contact_new lower book name phone extra Hv Hnone).
    rewrite find_none by done. simpl.
    unfold Commands.show_phone, Commands.decorated.
    by rewrite (find_first lower _ (AddressBook.contacts book)
                  (ContactRecord.mk name [Phone.mk phone] None) []).
  - rewrite (add_contact_existing lower book name phone extra pre r post
               Hv Hc Hpre Hr).
    rewrite (find_first lower book pre r post) by done. simpl.
    unfold Commands.show_phone, Commands.decorated.
    rewrite (find_first lower _ pre
               (ContactRecord.mk (ContactRecord.name r)
                  (ContactRecord.phones r ++ [Phone.mk phone])
                  (ContactRecord.birthday r)) post) by done.
    simpl. by rewrite map_app.
Qed.

End HandlerFacts2.

Section Steps.

Variable lower : str → str.
Variable pad_year : bool.

Lemma add_contact_steps args book :
  rtc book_step book (fst (Commands.add_contact lower args book)).
Proof.
  unfold Commands.add_contact, Commands.decorated.
  destruct args as [|name [|phone extra]]; [done..|].
  destruct (Commands.find_index lower book name) as [i|].
  - destruct phone as [|c phone]; [done|].
    destruct (Commands.on_record i _ book) as [b2 out] eqn:E.
    simpl. apply rtc_once.
    replace b2 with (fst (Commands.on_record i
      (ContactRecord.add_phone (c :: phone)) book)) by (by rewrite E).
    constructor.
  - destruct phone as [|c phone]; [by apply rtc_once; constructor|].
    destruct (Commands.on_record _ _ _) as [b2 out] eqn:E.
    simpl. eapply rtc_l; [apply (step_new name)|]. apply rtc_once.
    replace b2 with (fst (Commands.on_record
      (length (AddressBook.contacts book))
      (ContactRecord.add_phone (c :: phone))
      (AddressBook.add_record (ContactRecord.init name) book)))
      by (by rewrite E).
    constructor.
Qed.

Lemma change_contact_steps args book :
  rtc book_step book (fst (Commands.change_contact lower args book)).
Proof.
  unfold Commands.change_contact, Commands.decorated.
  destruct args as [|name [|old_phone [|new_phone [|x extra]]]]; [done..| |done].
  destruct (Commands.find_index lower book name) as [i|]; [|done].
  destruct (Commands.on_record i _ book) as [b2 out] eqn:E.
  simpl. apply rtc_once.
  replace b2 with (fst (Commands.on_record i
    (ContactRecord.change_phone old_phone new_phone) book)) by (by rewrite E).
  constructor.
Qed.

Lemma add_birthday_steps args book :
  rtc book_step book (fst (Commands.add_birthday lower args book)).
Proof.
  unfold Commands.add_birthday, Commands.decorated.
  destruct args as [|name [|birthday [|x extra]]]; [done..| |done].
  destruct (Commands.find_index lower book name) as [i|]; [|done].
  destruct (Commands.on_record i _ book) as [b2 out] eqn:E.
  simpl. apply rtc_once.
  replace b2 with (fst (Commands.on_record i
    (ContactRecord.add_birthday birthday) book)) by (by rewrite E).
  constructor.
Qed.

Lemma show_phone_same args book :
  fst (Commands.show_phone lower args book) = book.
Proof.
  unfold Commands.show_phone, Commands.decorated.
  destruct args as [|name [|x extra]]; [done| |done].
  by destruct (AddressBook.find lower book name).
Qed.

Lemma show_all_same book : fst (Commands.show_all book) = book.
Proof.
  unfold Commands.show_all, Commands.decorated.
  by destruct (AddressBook.contacts book).
Qed.

Lemma dispatch_steps today command args book :
  rtc book_step book
    (fst (Commands.dispatch lower pad_year today command args book)).
Proof.
  unfold Commands.dispatch.
  repeat (destruct (decide _); [first
    [ done | apply add_contact_steps | apply change_contact_steps
    | apply add_birthday_steps | by rewrite show_phone_same
    | by rewrite show_all_same ]|]).
  done.
Qed.

Lemma main_loop_steps inputs : ∀ book printed,
  rtc book_step book
    (ending_book (snd (Commands.main_loop lower pad_year book inputs
                         printed))).
Proof.
  induction inputs as [|[today line] rest IH]; intros book printed; simpl;
    [done|].
  destruct (Commands.parse_input lower (Text.strip line))
    as [[command args]|e]; [|done].
  destruct (decide _); [done|].
  pose proof (dispatch_steps today command args book) as Hd.
  destruct (Commands.dispatch lower pad_year today command args book)
    as [book' [text|e]]; simpl in *.
  - etrans; [exact Hd|apply IH].
  - exact Hd.
Qed.

End Steps.

(** What a single change keeps. *)

Lemma on_record_contacts {A} i (m : ContactRecord.method A) book :
  AddressBook.contacts (fst (Commands.on_record i m book))
  = match AddressBook.contacts book !! i with
    | Some r => <[i := fst (m r)]> (AddressBook.contacts book)
    | None => AddressBook.contacts book
    end.
Proof.
  unfold Commands.on_record.
  destruct (AddressBook.contacts book !! i) as [r|]; [|done].
  by destruct (m r).
Qed.

Lemma on_record_Forall {A} (Q : ContactRecord.t → Prop) i
    (m : ContactRecord.method A) book :
  (∀ r, Q r → Q (fst (m r))) →
  Forall Q (AddressBook.contacts book) →
  Forall Q (AddressBook.contacts (fst (Commands.on_record i m book))).
Proof.
  intros Hm HQ. rewrite on_record_contacts.
  destruct (AddressBook.contacts book !! i) as [r|] eqn:E; [|done].
  apply Forall_insert; [done|]. apply Hm.
  by eapply (Forall_lookup_1 Q).
Qed.

Lemma on_record_names {A} i (m : ContactRecord.method A) book :
  (∀ r, ContactRecord.name (fst (m r)) = ContactRecord.name r) →
  map ContactRecord.name
    (AddressBook.contacts (fst (Commands.on_record i m book)))
  = map ContactRecord.name (AddressBook.contacts book).
Proof.
  intros Hm. rewrite on_record_contacts.
  destruct (AddressBook.contacts book !! i) as [r|] eqn:E; [|done].
  rewrite list_fmap_insert, Hm. apply list_insert_id.
  by rewrite list_lookup_fmap, E.
Qed.

Lemma add_phone_name phone r :
  ContactRecord.name (fst (ContactRecord.add_phone phone r))
  = ContactRecord.name r.
Proof.
  unfold ContactRecord.add_phone. by destruct (Phone.init phone).
Qed.

Lemma add_birthday_name s r :
  ContactRecord.name (fst (ContactRecord.add_birthday s r))
  = ContactRecord.name r.
Proof.
  unfold ContactRecord.add_birthday. by destruct (Birthday.init s).
Qed.

Lemma change_phone_from_state idx rest old_phone new_phone self :
  fst (ContactRecord.change_phone_from idx rest old_phone new_phone self)
  = self
  ∨ ∃ j, fst (ContactRecord.change_phone_from idx rest old_phone new_phone
                self)
         = ContactRecord.mk (ContactRecord.name self)
             (<[j := Phone.mk new_phone]> (ContactRecord.phones self))
             (ContactRecord.birthday self)
         ∧ Phone.validate new_phone = true.
Proof.
  revert idx. induction rest as [|p rest IH]; intros idx; simpl; [by left|].
  destruct (decide _) as [_|_]; [|apply IH].
  destruct (Phone.init new_phone) as [q|err] eqn:E; [|by left].
  apply Phone_init_Ok in E as [-> Hv]. right. by exists idx.
Qed.

Lemma change_phone_name old_phone new_phone r :
  ContactRecord.name (fst (ContactRecord.change_phone old_phone new_phone r))
  = ContactRecord.name r.
Proof.
  unfold ContactRecord.change_phone.
  destruct (change_phone_from_state 0 (ContactRecord.phones r) old_phone
              new_phone r) as [->|(j & -> & _)]; done.
Qed.

Lemma book_step_names book book' :
  book_step book book' →
  map ContactRecord.name (AddressBook.contacts book)
    `prefix_of` map ContactRecord.name (AddressBook.contacts book').
Proof.
  destruct 1; simpl.
  - rewrite map_app. by apply prefix_app_r.
  - rewrite on_record_names; [done|]. apply add_phone_name.
  - rewrite on_record_names; [done|]. apply change_phone_name.
  - rewrite on_record_names; [done|]. apply add_birthday_name.
Qed.

Lemma book_steps_names book book' :
  rtc book_step book book' →
  map ContactRecord.name (AddressBook.contacts book)
    `prefix_of` map ContactRecord.name (AddressBook.contacts book').
Proof.
  induction 1 as [|b1 b2 b3 H12 _ IH]; [done|].
  etrans; [by apply book_step_names|done].
Qed.

Lemma book_step_phones book book' :
  book_step book book' →
  Forall phones_valid (AddressBook.contacts book) →
  Forall phones_valid (AddressBook.contacts book').
Proof.
  destruct 1; intros H; simpl.
  - apply Forall_app. split; [done|]. repeat constructor.
  - apply on_record_Forall; [|done]. intros r. apply add_phone_valid.
  - apply on_record_Forall; [|done]. intros r. apply change_phone_valid.
  - apply on_record_Forall; [|done]. intros r Hr.
    unfold ContactRecord.add_birthday. by destruct (Birthday.init birthday).
Qed.

Lemma book_step_birthdays book book' :
  book_step book book' → birthdays_real book → birthdays_real book'.
Proof.
  unfold birthdays_real. destruct 1; intros H; simpl.
  - apply Forall_app. split; [done|]. by repeat constructor.
  - apply on_record_Forall; [|done]. intros r Hr.
    unfold ContactRecord.add_phone. by destruct (Phone.init phone).
  - apply on_record_Forall; [|done]. intros r Hr.
    unfold ContactRecord.change_phone.
    by destruct (change_phone_from_state 0 (ContactRecord.phones r)
                   old_phone new_phone r) as [->|(j & -> & _)].
  - apply on_record_Forall; [|done]. intros r Hr.
    unfold ContactRecord.add_birthday.
    destruct (Birthday.init birthday) as [[d]|e] eqn:E; [|done].
    simpl. intros b [= <-]. simpl.
    apply Birthday_init_Ok in E as (_ & _ & _ & _ & _ & _ & _ & _ & _ & _ & Hc).
    done.
Qed.

(** ** Splitting a line into words *)

Lemma split_from_blank s word :
  blank s →
  Text.split_from s word = match word with [] => [] | _ => [word] end.
Proof.
  intros H. revert word.
  induction H as [|c s Hc _ IH]; intros word; simpl; [done|]. rewrite Hc.
  destruct word; by rewrite IH.
Qed.

Lemma split_from_nil s word :
  Text.split_from s word = [] → word = [] ∧ blank s.
Proof.
  revert word. induction s as [|c s IH]; intros word; simpl.
  - destruct word; [by split; [|constructor]|done].
  - destruct (Text.isspace_cp c) eqn:Hc.
    + destruct word; [|done]. intros [_ H]%IH. split; [done|by constructor].
    + intros [H _]%IH. by destruct word.
Qed.

Lemma split_from_words s : ∀ word,
  Forall (λ c, Text.isspace_cp c = false) word →
  Forall is_word (Text.split_from s word).
Proof.
  induction s as [|c s IH]; intros word Hw; simpl.
  - destruct word; [constructor|]. constructor; [by split|constructor].
  - destruct (Text.isspace_cp c) eqn:Hc.
    + destruct word as [|c' word]; [by apply IH|].
      constructor; [by split|apply IH; constructor].
    + apply IH, Forall_app. split; [done|]. by constructor.
Qed.

Lemma split_from_word w : ∀ rest word,
  Forall (λ c, Text.isspace_cp c = false) w →
  Text.split_from (w ++ rest) word = Text.split_from rest (word ++ w).
Proof.
  induction w as [|c w IH]; intros rest word Hw; simpl.
  - by rewrite app_nil_r.
  - apply Forall_cons in Hw as [Hc Hw]. rewrite Hc, IH by done.
    by rewrite <- app_assoc.
Qed.

Lemma split_from_append_blank s ws : ∀ word,
  blank ws → Text.split_from (s ++ ws) word = Text.split_from s word.
Proof.
  induction s as [|c s IH]; intros word Hws; simpl.
  - by apply split_from_blank.
  - destruct (Text.isspace_cp c); destruct word; by rewrite ?IH.
Qed.

Lemma lstrip_split s :
  ∃ ws, s = ws ++ Text.lstrip s ∧ blank ws.
Proof.
  induction s as [|c s (ws & IH & Hws)]; simpl.
  { exists []. split; [done|constructor]. }
  destruct (Text.isspace_cp c) eqn:Hc.
  - exists (c :: ws). split; [by rewrite IH at 1|by constructor].
  - exists []. split; [done|constructor].
Qed.

Lemma rstrip_split s :
  ∃ ws, s = Text.rstrip s ++ ws ∧ blank ws.
Proof.
  unfold Text.rstrip. destruct (lstrip_split (rev s)) as (ws & E & Hws).
  exists (rev ws). split.
  - rewrite <- rev_app_distr, <- E. by rewrite rev_involutive.
  - unfold blank. by apply Forall_rev.
Qed.

Lemma split_lstrip s : Text.split (Text.lstrip s) = Text.split s.
Proof.
  unfold Text.split. induction s as [|c s IH]; simpl; [done|].
  destruct (Text.isspace_cp c) eqn:Hc; [exact IH|]. simpl. by rewrite Hc.
Qed.

Lemma split_strip s : Text.split (Text.strip s) = Text.split s.
Proof.
  unfold Text.strip. rewrite <- (split_lstrip s).
  destruct (rstrip_split (Text.lstrip s)) as (ws & E & Hws).
  rewrite E at 2. unfold Text.split. by rewrite split_from_append_blank.
Qed.

Lemma lstrip_word w : is_word w → Text.lstrip w = w.
Proof.
  intros [Hne Hw]. destruct Hw as [|c w Hc _]; [done|]. simpl. by rewrite Hc.
Qed.

Lemma strip_word w : is_word w → Text.strip w = w.
Proof.
  intros Hw. unfold Text.strip, Text.rstrip. rewrite (lstrip_word w Hw).
  rewrite lstrip_word, rev_involutive; [done|].
  destruct Hw as [Hne Hw]. split; [|by apply Forall_rev].
  intros E. apply Hne. by rewrite <- (rev_involutive w), E.
Qed.

Lemma split_from_space s c w :
  Text.split_from (32 :: s) (c :: w) = (c :: w) :: Text.split_from s [].
Proof. reflexivity. Qed.

Lemma split_join words :
  Forall is_word words → Text.split (join [32] words) = words.
Proof.
  unfold Text.split. induction 1 as [|w words [Hne Hw] Hws IH]; [done|].
  destruct w as [|c w]; [done|]. destruct words as [|w' words].
  - change (join [32] [c :: w]) with (c :: w).
    pose proof (split_from_word (c :: w) [] [] Hw) as E.
    rewrite app_nil_r in E. by rewrite E.
  - change (join [32] ((c :: w) :: w' :: words))
      with ((c :: w) ++ 32 :: join [32] (w' :: words)).
    rewrite split_from_word by done. cbn [app].
    by rewrite split_from_space, IH.
Qed.

(** ** Which exceptions leave the report and the handlers *)

Lemma tomorrow_exn d e :
  Date.tomorrow d = Raise e → e = OverflowError ∧ 9999 ≤ Date.year d.
Proof.
  unfold Date.tomorrow. destruct (_ <? _); [done|].
  destruct (Date.month d <? 12); [done|].
  destruct (Date.year d <? 9999) eqn:E; [done|].
  apply N.ltb_ge in E. by intros [= <-].
Qed.

Lemma add_days_exn n : ∀ d e, Date.add_days d n = Raise e → e = OverflowError.
Proof.
  induction n as [|n IH]; intros d e; simpl; [done|].
  destruct (Date.tomorrow d) as [d'|e'] eqn:E; simpl; [apply IH|].
  apply tomorrow_exn in E as [-> _]. by intros [= <-].
Qed.

Lemma add_days_safe n : ∀ d,
  (Date.year d < 9999 ∧ (n ≤ 30)%nat)
  ∨ (Date.year d = 9999 ∧ Date.month d = 1 ∧ Date.day d + N.of_nat n ≤ 31) →
  ∃ d', Date.add_days d n = Ok d'.
Proof.
  induction n as [|n IH]; intros d H; simpl; [by eexists|].
  unfold Date.tomorrow.
  destruct (Date.day d <? Date.days_in_month (Date.year d) (Date.month d))
    eqn:E1; simpl.
  { apply IH. simpl. lia. }
  destruct (Date.month d <? 12) eqn:E2; simpl.
  { apply IH. simpl. destruct H as [H|(Hy & Hm & Hd)]; [lia|].
    rewrite Hy, Hm in E1. apply N.ltb_ge in E1.
    change (Date.days_in_month 9999 1) with 31 in E1. lia. }
  destruct (Date.year d <? 9999) eqn:E3; simpl.
  { apply IH. simpl. apply N.ltb_lt in E3. lia. }
  apply N.ltb_ge in E2, E3. lia.
Qed.

Lemma add_days_7_ok today :
  Date.year today < 9999 → ∃ limit, Date.add_days today 7 = Ok limit.
Proof. intros H. apply add_days_safe. left. lia. Qed.

Lemma occurrence_exn today b e :
  AddressBook.occurrence today b = Raise e → e = ValueError.
Proof.
  unfold AddressBook.occurrence, Date.replace_year.
  destruct (Date.new (Date.year today) _ _) as [this|e'] eqn:E; simpl.
  - destruct (Date.ltb this today); [apply new_exn|done].
  - apply new_exn in E as ->. by intros [= <-].
Qed.

Lemma within_week_exn today occ e :
  AddressBook.within_week today occ = Raise e →
  e = OverflowError ∧ 9999 ≤ Date.year today.
Proof.
  unfold AddressBook.within_week. destruct (Date.leb today occ); [|done].
  destruct (Date.add_days today 7) as [limit|e'] eqn:E; simpl; [done|].
  intros [= <-]. split; [by eapply add_days_exn|].
  destruct (N.lt_ge_cases (Date.year today) 9999) as [H|H]; [|done].
  destruct (add_days_7_ok today H) as [? E']. congruence.
Qed.

Lemma upcoming_from_exn pad_year today records : ∀ acc e,
  AddressBook.upcoming_from pad_year today records acc = Raise e →
  e = ValueError ∨ (e = OverflowError ∧ 9999 ≤ Date.year today).
Proof.
  induction records as [|r records IH]; intros acc e; simpl; [done|].
  destruct (ContactRecord.birthday r) as [b|]; [|apply IH].
  destruct (AddressBook.occurrence today (Birthday.value b)) as [occ|e1]
    eqn:E1; simpl.
  - destruct (AddressBook.within_week today occ) as [inside|e2] eqn:E2;
      simpl; [apply IH|].
    apply within_week_exn in E2 as [-> ?]. intros [= <-]. by right.
  - apply occurrence_exn in E1 as ->. intros [= <-]. by left.
Qed.

Lemma upcoming_from_sublist pad_year today records : ∀ acc res,
  AddressBook.upcoming_from pad_year today records acc = Ok res →
  ∃ rows, res = acc ++ rows
    ∧ map AddressBook.entry_name rows
        `sublist_of` map ContactRecord.name records.
Proof.
  induction records as [|r records IH]; intros acc res; simpl.
  - intros [= <-]. exists []. by rewrite app_nil_r.
  - destruct (ContactRecord.birthday r) as [b|].
    + destruct (AddressBook.occurrence today (Birthday.value b)) as [occ|];
        simpl; [|done].
      destruct (AddressBook.within_week today occ) as [[]|]; simpl; [| |done].
      * intros (rows & -> & Hs)%IH. eexists (_ :: rows).
        split; [by rewrite <- app_assoc|]. simpl. by apply sublist_skip.
      * intros (rows & -> & Hs)%IH. exists rows. split; [done|].
        by apply sublist_cons.
    + intros (rows & -> & Hs)%IH. exists rows. split; [done|].
      by apply sublist_cons.
Qed.

Lemma days_in_month_any_year y y' m d :
  d ≤ Date.days_in_month y m → ¬ (m = 2 ∧ d = 29) →
  d ≤ Date.days_in_month y' m.
Proof.
  unfold Date.days_in_month. intros H Hn.
  destruct (m =? 2) eqn:Em.
  - apply N.eqb_eq in Em as ->. simpl in *.
    destruct (Date.is_leap y), (Date.is_leap y'); simpl in *; lia.
  - done.
Qed.

Lemma occurrence_ok today b :
  1 ≤ Date.year today < 9999 →
  Date.check_date_fields (Date.year b) (Date.month b) (Date.day b) = true →
  ¬ (Date.month b = 2 ∧ Date.day b = 29) →
  ∃ occ, AddressBook.occurrence today b = Ok occ.
Proof.
  intros Hy Hc Hn.
  assert (∀ y, 1 ≤ y ≤ 9999 →
            Date.check_date_fields y (Date.month b) (Date.day b) = true)
    as Hany.
  { intros y Hy'. unfold Date.check_date_fields in *.
    rewrite !andb_true_iff, !N.leb_le in *.
    split_and!; try lia.
    apply (days_in_month_any_year (Date.year b)); [lia|done]. }
  unfold AddressBook.occurrence, Date.replace_year, Date.new.
  rewrite Hany by lia. simpl. destruct (Date.ltb _ today); [|by eexists].
  rewrite Hany by lia. by eexists.
Qed.

(** ** What a whole run keeps *)

Section Runs.

Variable lower : str → str.
Variable pad_year : bool.

(** X8: a run of [main] never removes, renames or reorders contacts: the
    names in the book it starts from are, in order, the first names of
    the book it ends with, however it ends. *)
Theorem main_keeps_contacts (loaded : AddressBook.t)
    (inputs : list (Date.date * str)) :
  map ContactRecord.name (AddressBook.contacts loaded)
    `prefix_of`
  map ContactRecord.name
    (AddressBook.contacts
       (ending_book (snd (Commands.main lower pad_year loaded inputs)))).
Proof. apply book_steps_names, main_loop_steps. Qed.

Lemma book_steps_phones book book' :
  rtc book_step book book' →
  Forall phones_valid (AddressBook.contacts book) →
  Forall phones_valid (AddressBook.contacts book').
Proof. induction 1; eauto using book_step_phones. Qed.

Lemma book_steps_birthdays book book' :
  rtc book_step book book' → birthdays_real book → birthdays_real book'.
Proof. induction 1; eauto using book_step_birthdays. Qed.

(** X9: if every phone in the book a run starts from is valid, so is
    every phone in the book it ends with, whatever was typed. *)
Theorem main_keeps_phones_valid (loaded : AddressBook.t)
    (inputs : list (Date.date * str)) :
  Forall phones_valid (AddressBook.contacts loaded) →
  Forall (λ r, Forall (λ p, Phone.validate (Phone.value p) = true)
                 (ContactRecord.phones r))
    (AddressBook.contacts
       (ending_book (snd (Commands.main lower pad_year loaded inputs)))).
Proof.
  intros H.
  eapply Forall_impl.
  - eapply book_steps_phones; [apply main_loop_steps|done].
  - intros r Hr. eapply Forall_impl; [exact Hr|].
    intros p Hp. by apply validate_spec.
Qed.

(** X10: if every birthday in the book a run starts from is a date of the
    calendar, so is every birthday in the book it ends with. *)
Theorem main_keeps_birthdays_real (loaded : AddressBook.t)
    (inputs : list (Date.date * str)) :
  birthdays_real loaded →
  birthdays_real
    (ending_book (snd (Commands.main lower pad_year loaded inputs))).
Proof. intros H. eapply book_steps_birthdays; [apply main_loop_steps|done]. Qed.

(** *** Reading a line *)

Lemma lstrip_blank s : blank s → Text.lstrip s = [].
Proof. induction 1 as [|c s Hc _ IH]; simpl; [done|]. by rewrite Hc. Qed.

Lemma split_nil_blank s : Text.split s = [] ↔ blank s.
Proof.
  unfold Text.split. split.
  - by intros [_ ?]%split_from_nil.
  - intros H. by rewrite split_from_blank.
Qed.

(** X11: [parse_input] raises ValueError exactly on a line of nothing but
    whitespace, the empty line included, and raises nothing else; no
    handler is there to catch it, so such a line ends the run of [main]
    with the book unsaved. *)
Theorem parse_input_blank (s : str) :
  (Commands.parse_input lower s = Raise ValueError ↔ blank s)
  ∧ (∀ e, Commands.parse_input lower s = Raise e → e = ValueError)
  ∧ (blank s →
     ∀ book today rest printed,
       Commands.main_loop lower pad_year book ((today, s) :: rest) printed
       = (printed, Commands.Uncaught ValueError book)).
Proof.
  unfold Commands.parse_input. split_and!.
  - rewrite <- split_nil_blank. by destruct (Text.split s).
  - intros e. destruct (Text.split s); [|done]. by intros [= <-].
  - intros H book today rest printed. simpl.
    unfold Commands.parse_input, Text.strip. by rewrite lstrip_blank.
Qed.

(** X12: on any other line [parse_input] returns the first word,
    lower-cased, and the other words in their order; the words are the
    whitespace-free pieces of the line, none of them empty. *)
Theorem parse_input_words (s : str) (command : str) (args : list str) :
  Commands.parse_input lower s = Ok (command, args) →
  ∃ w, Text.split s = w :: args
       ∧ command = lower w
       ∧ is_word w ∧ Forall is_word args ∧ ¬ blank s.
Proof.
  unfold Commands.parse_input.
  pose proof (split_from_words s [] ltac:(constructor)) as Hw.
  fold (Text.split s) in Hw.
  destruct (Text.split s) as [|w ws] eqn:E; [done|].
  apply Forall_cons in Hw as [Hw Hws]. intros [= <- <-].
  exists w. split_and!; [done| |done|done|].
  - by rewrite strip_word.
  - intros Hb%split_nil_blank. congruence.
Qed.

(** X13: words put together with single spaces are read back as they
    are: the first as the command, the others as its arguments. *)
Theorem parse_input_join (w : str) (ws : list str) :
  Forall is_word (w :: ws) →
  Commands.parse_input lower (join [32] (w :: ws)) = Ok (lower w, ws).
Proof.
  intros H. unfold Commands.parse_input. rewrite split_join by done.
  apply Forall_cons in H as [Hw _]. by rewrite strip_word.
Qed.

(** X14: whitespace around a line makes no difference to how it is
    read. *)
Theorem parse_input_strip (s : str) :
  Commands.parse_input lower (Text.strip s) = Commands.parse_input lower s.
Proof. unfold Commands.parse_input. by rewrite split_strip. Qed.

(** *** Exceptions that get out *)

Lemma input_error_Ok r :
  (∀ e, r = Raise e → e ≠ OverflowError) →
  ∃ text, Handlers.input_error r = Ok text.
Proof.
  intros H. destruct r as [text|[]]; simpl; try by eexists.
  by destruct (H OverflowError).
Qed.

Lemma change_phone_from_exn idx rest old_phone new_phone self e :
  snd (ContactRecord.change_phone_from idx rest old_phone new_phone self)
  = Raise e → e ≠ OverflowError.
Proof.
  revert idx. induction rest as [|p rest IH]; intros idx; simpl.
  - by intros [= <-].
  - destruct (decide _) as [_|_]; [|apply IH].
    destruct (Phone.init new_phone) as [q|err] eqn:E; simpl; [done|].
    apply Phone_init_Raise in E as [-> _]. by intros [= <-].
Qed.

Lemma on_record_exn {A} i (m : ContactRecord.method A) book e :
  (∀ r e', snd (m r) = Raise e' → e' ≠ OverflowError) →
  snd (Commands.on_record i m book) = Raise e → e ≠ OverflowError.
Proof.
  intros Hm. unfold Commands.on_record.
  destruct (AddressBook.contacts book !! i) as [r|]; [|by intros [= <-]].
  specialize (Hm r). destruct (m r) as [r' out]. simpl in *. apply Hm.
Qed.

Lemma add_phone_exn phone r e :
  snd (ContactRecord.add_phone phone r) = Raise e → e ≠ OverflowError.
Proof.
  unfold ContactRecord.add_phone.
  destruct (Phone.init phone) as [q|err] eqn:E; simpl; [done|].
  apply Phone_init_Raise in E as [-> _]. by intros [= <-].
Qed.

Lemma add_birthday_exn s r e :
  snd (ContactRecord.add_birthday s r) = Raise e → e ≠ OverflowError.
Proof.
  unfold ContactRecord.add_birthday.
  destruct (Birthday.init s) as [q|err] eqn:E; simpl; [done|].
  apply Birthday_init_exn in E as ->. by intros [= <-].
Qed.

Lemma bind_message_exn (out : result unit) (text : str) e :
  (∀ e', out = Raise e' → e' ≠ OverflowError) →
  (_ ← out; Ok text) = Raise e → e ≠ OverflowError.
Proof. intros H. destruct out; simpl; [done|]. intros [= <-]. by apply H. Qed.

Lemma add_contact_Ok args book :
  ∃ text, snd (Commands.add_contact lower args book) = Ok text.
Proof.
  unfold Commands.add_contact, Commands.decorated.
  destruct args as [|name [|phone extra]]; [by eexists..|].
  destruct (match Commands.find_index lower book name with
            | Some i => _ | None => _ end) as [[book1 i] message].
  destruct phone as [|c phone]; [by eexists|].
  pose proof (on_record_exn i (ContactRecord.add_phone (c :: phone)) book1)
    as Hexn.
  destruct (Commands.on_record i _ book1) as [book2 out]. simpl in *.
  apply input_error_Ok. intros e. apply bind_message_exn. intros e' ->.
  apply Hexn; [|done]. intros r e''. apply add_phone_exn.
Qed.

Lemma change_contact_Ok args book :
  ∃ text, snd (Commands.change_contact lower args book) = Ok text.
Proof.
  unfold Commands.change_contact, Commands.decorated.
  destruct args as [|name [|old_phone [|new_phone [|x extra]]]];
    [by eexists..| |by eexists].
  destruct (Commands.find_index lower book name) as [i|]; [|by eexists].
  pose proof (on_record_exn i
                (ContactRecord.change_phone old_phone new_phone) book)
    as Hexn.
  destruct (Commands.on_record i _ book) as [book2 out]. simpl in *.
  apply input_error_Ok. intros e. apply bind_message_exn. intros e' ->.
  apply Hexn; [|done]. intros r e''. apply change_phone_from_exn.
Qed.

Lemma add_birthday_Ok args book :
  ∃ text, snd (Commands.add_birthday lower args book) = Ok text.
Proof.
  unfold Commands.add_birthday, Commands.decorated.
  destruct args as [|name [|birthday [|x extra]]];
    [by eexists..| |by eexists].
  destruct (Commands.find_index lower book name) as [i|]; [|by eexists].
  pose proof (on_record_exn i (ContactRecord.add_birthday birthday) book)
    as Hexn.
  destruct (Commands.on_record i _ book) as [book2 out]. simpl in *.
  apply input_error_Ok. intros e. apply bind_message_exn. intros e' ->.
  apply Hexn; [|done]. intros r e''. apply add_birthday_exn.
Qed.

Lemma show_phone_Ok args book :
  ∃ text, snd (Commands.show_phone lower args book) = Ok text.
Proof.
  unfold Commands.show_phone, Commands.decorated.
  destruct args as [|name [|x extra]]; [by eexists| |by eexists].
  destruct (AddressBook.find lower book name); by eexists.
Qed.

Lemma show_all_Ok book : ∃ text, snd (Commands.show_all book) = Ok text.
Proof.
  unfold Commands.show_all, Commands.decorated.
  destruct (AddressBook.contacts book); by eexists.
Qed.

Lemma show_birthday_Ok args book :
  ∃ text, Handlers.show_birthday lower pad_year args book = Ok text.
Proof.
  unfold Handlers.show_birthday. destruct args as [|name extra]; [by eexists|].
  destruct (AddressBook.find lower book name) as [[? ? [b|]]|]; by eexists.
Qed.

Lemma birthdays_exn today args book e :
  Handlers.birthdays pad_year today args book = Raise e →
  e = OverflowError ∧ 9999 ≤ Date.year today.
Proof.
  unfold Handlers.birthdays, AddressBook.get_upcoming_birthdays.
  destruct (AddressBook.upcoming_from _ _ _ _) as [[|row rows]|e'] eqn:E;
    simpl; [done..|].
  apply upcoming_from_exn in E as [->|[-> ?]]; [done|]. by intros [= <-].
Qed.

(** X15: the only exception that leaves a command is OverflowError, out
    of [birthdays], in the year 9999, where today + 7 days may not exist;
    it is not caught and ends the run.  Every other command, whatever its
    arguments and the book, answers with a text. *)
Theorem dispatch_raises (today : Date.date) (command : str)
    (args : list str) (book book' : AddressBook.t) (e : exn) :
  Commands.dispatch lower pad_year today command args book
  = (book', Raise e) →
  e = OverflowError ∧ command = lit "birthdays"
  ∧ 9999 ≤ Date.year today ∧ book' = book.
Proof.
  unfold Commands.dispatch.
  destruct (decide _); [done|].
  destruct (decide _).
  { destruct (add_contact_Ok args book) as [text H].
    intros E. rewrite E in H. done. }
  destruct (decide _).
  { destruct (change_contact_Ok args book) as [text H].
    intros E. rewrite E in H. done. }
  destruct (decide _).
  { destruct (show_phone_Ok args book) as [text H].
    intros E. rewrite E in H. done. }
  destruct (decide _).
  { destruct (show_all_Ok book) as [text H].
    intros E. rewrite E in H. done. }
  destruct (decide _).
  { destruct (add_birthday_Ok args book) as [text H].
    intros E. rewrite E in H. done. }
  destruct (decide _).
  { destruct (show_birthday_Ok args book) as [text H].
    intros [= <- E]. rewrite E in H. done. }
  destruct (decide _) as [->|_]; [|done].
  intros [= <- E]. apply birthdays_exn in E as [-> ?]. done.
Qed.

End Runs.

(** *** The birthday report *)

(** X16: the rows of the report follow the order of the book, at most
    one row for a record: their names are a subsequence of the names of
    the contacts. *)
Theorem upcoming_birthdays_order (pad_year : bool) (today : Date.date)
    (book : AddressBook.t) (res : list AddressBook.entry) :
  AddressBook.get_upcoming_birthdays pad_year today book = Ok res →
  map AddressBook.entry_name res
    `sublist_of` map ContactRecord.name (AddressBook.contacts book).
Proof.
  unfold AddressBook.get_upcoming_birthdays.
  by intros (rows & -> & H)%upcoming_from_sublist.
Qed.

Lemma upcoming_from_total pad_year today records : ∀ acc,
  1 ≤ Date.year today < 9999 →
  Forall (λ r, ∀ b, ContactRecord.birthday r = Some b →
            Date.check_date_fields (Date.year (Birthday.value b))
              (Date.month (Birthday.value b)) (Date.day (Birthday.value b))
            = true
            ∧ ¬ (Date.month (Birthday.value b) = 2
                 ∧ Date.day (Birthday.value b) = 29)) records →
  ∃ res, AddressBook.upcoming_from pad_year today records acc = Ok res.
Proof.
  intros acc Hy H. revert acc.
  induction H as [|r records Hr _ IH]; intros acc; simpl; [by eexists|].
  destruct (ContactRecord.birthday r) as [b|]; [|apply IH].
  destruct (Hr b eq_refl) as [Hc Hn].
  destruct (occurrence_ok today (Birthday.value b) Hy Hc Hn) as [occ ->].
  simpl. unfold AddressBook.within_week.
  destruct (add_days_7_ok today ltac:(lia)) as [limit ->].
  destruct (Date.leb today occ); simpl; apply IH.
Qed.

(** X17: the report returns its rows whenever today's year is between 1
    and 9998 and no stored birthday, all of them real dates, falls on
    29 February. *)
Theorem upcoming_birthdays_returns (pad_year : bool) (today : Date.date)
    (book : AddressBook.t) :
  1 ≤ Date.year today < 9999 →
  birthdays_real book →
  Forall (λ r, ∀ b, ContactRecord.birthday r = Some b →
            ¬ (Date.month (Birthday.value b) = 2
               ∧ Date.day (Birthday.value b) = 29))
    (AddressBook.contacts book) →
  ∃ res, AddressBook.get_upcoming_birthdays pad_year today book = Ok res.
Proof.
  intros Hy Hreal Hleap. apply upcoming_from_total; [done|].
  unfold birthdays_real in Hreal. rewrite Forall_forall in *.
  intros r Hr b Hb. split; [by apply (Hreal r Hr)|by apply (Hleap r Hr)].
Qed.

Lemma occurrence_this_year today b occ :
  AddressBook.occurrence today b = Ok occ →
  Date.check_date_fields (Date.year today) (Date.month b) (Date.day b) = true.
Proof.
  unfold AddressBook.occurrence, Date.replace_year, Date.new.
  by destruct (Date.check_date_fields (Date.year today) _ _).
Qed.

(** X18: with a birthday on 29 February anywhere in the book, the report
    returns no rows in any year that is not a leap year; before 9999 it
    raises ValueError, and the [birthdays] command answers "Please give
    me proper value." *)
Theorem upcoming_birthdays_leap_day_raises (pad_year : bool)
    (today : Date.date) (book : AddressBook.t) (r : ContactRecord.t)
    (b : Birthday.t) (args : list str) :
  r ∈ AddressBook.contacts book →
  ContactRecord.birthday r = Some b →
  Date.month (Birthday.value b) = 2 → Date.day (Birthday.value b) = 29 →
  Date.is_leap (Date.year today) = false →
  (∀ res, AddressBook.get_upcoming_birthdays pad_year today book ≠ Ok res)
  ∧ (Date.year today < 9999 →
     AddressBook.get_upcoming_birthdays pad_year today book
     = Raise ValueError
     ∧ Handlers.birthdays pad_year today args book
       = Ok (lit "Please give me proper value.")).
Proof.
  intros Hr Hb Hm Hd Hleap.
  assert (∀ res, AddressBook.get_upcoming_birthdays pad_year today book
                 ≠ Ok res) as Hno.
  { intros res [Hall _]%upcoming_from_Ok.
    destruct (Hall r b Hr Hb) as (occ & _ & Ho & _).
    apply occurrence_this_year in Ho. rewrite Hm, Hd in Ho.
    unfold Date.check_date_fields, Date.days_in_month in Ho.
    rewrite Hleap in Ho. simpl in Ho.
    by rewrite !andb_false_r in Ho. }
  split; [done|]. intros Hy.
  assert (AddressBook.get_upcoming_birthdays pad_year today book
          = Raise ValueError) as E.
  { destruct (AddressBook.get_upcoming_birthdays pad_year today book)
      as [res|e] eqn:E; [by destruct (Hno res)|].
    apply upcoming_from_exn in E as [->|[_ ?]]; [done|lia]. }
  split; [done|]. unfold Handlers.birthdays. by rewrite E.
Qed.

(** ** The properties at work on a small book *)

Lemma add_contact_adds_phone_witness :
  Commands.add_contact ascii_lower [lit "Eve"; lit "3333333333"] sample_book
  = (AddressBook.mk
       [sample_bob; ContactRecord.init (lit "Ann");
        ContactRecord.mk (lit "Eve") [Phone.mk (lit "3333333333")] None],
     Ok (lit "Contact added."))
  ∧ Commands.add_contact ascii_lower [lit "ANN"; lit "3333333333"] sample_book
    = (AddressBook.mk
         [sample_bob;
          ContactRecord.mk (lit "Ann") [Phone.mk (lit "3333333333")] None],
       Ok (lit "Contact updated.")).
Proof.
  split.
  - apply (add_contact_adds_phone ascii_lower sample_book (lit "Eve")
             (lit "3333333333") []); [reflexivity|].
    repeat constructor; vm_compute; discriminate.
  - apply (proj2 (add_contact_adds_phone ascii_lower sample_book (lit "ANN")
                    (lit "3333333333") [] eq_refl)
             [sample_bob] (ContactRecord.init (lit "Ann")) []);
      [reflexivity| |reflexivity].
    repeat constructor; vm_compute; discriminate.
Defined.

Lemma add_contact_invalid_witness :
  Commands.add_contact ascii_lower [lit "Eve"; lit "12345"] sample_book
  = (AddressBook.mk
       [sample_bob; ContactRecord.init (lit "Ann");
        ContactRecord.init (lit "Eve")],
     Ok (lit "Please give me proper value.")).
Proof.
  apply (add_contact_invalid ascii_lower sample_book (lit "Eve")
           (lit "12345") []); [reflexivity|discriminate].
Defined.

Lemma wrong_argument_count_witness :
  Commands.add_contact ascii_lower [lit "Bob"] sample_book
  = (sample_book, Ok (lit "Please give me proper value."))
  ∧ Commands.show_phone ascii_lower [] sample_book
    = (sample_book, Ok (lit "Please give me proper value."))
  ∧ Handlers.show_birthday ascii_lower false [] sample_book
    = Ok (lit "Enter the argument for the command.").
Proof.
  split_and!.
  - apply (wrong_argument_count ascii_lower false [lit "Bob"] sample_book).
    simpl. lia.
  - apply (wrong_argument_count ascii_lower false [] sample_book).
    simpl. lia.
  - apply (wrong_argument_count ascii_lower false [] sample_book).
    reflexivity.
Defined.

Lemma change_contact_outcomes_witness :
  Commands.change_contact ascii_lower
    [lit "eve"; lit "1111111111"; lit "3333333333"] sample_book
  = (sample_book, Ok (lit "Contact not found."))
  ∧ Commands.change_contact ascii_lower
      [lit "bob"; lit "3333333333"; lit "4444444444"] sample_book
    = (sample_book, Ok (lit "Contact not found."))
  ∧ Commands.change_contact ascii_lower
      [lit "bob"; lit "2222222222"; lit "3333333333"] sample_book
    = (AddressBook.mk
         [ContactRecord.mk (lit "Bob")
            [Phone.mk (lit "1111111111"); Phone.mk (lit "3333333333")]
            (Some (Birthday.mk (Date.mk 2000 1 31)));
          ContactRecord.init (lit "Ann")],
       Ok (lit "Phone number updated.")).
Proof.
  split_and!.
  - apply (change_contact_outcomes ascii_lower sample_book (lit "eve")
             (lit "1111111111") (lit "3333333333")).
    repeat constructor; vm_compute; discriminate.
  - apply (proj2 (change_contact_outcomes ascii_lower sample_book (lit "bob")
                    (lit "3333333333") (lit "4444444444"))
             [] sample_bob [ContactRecord.init (lit "Ann")]);
      [reflexivity|constructor|reflexivity|].
    repeat constructor; vm_compute; discriminate.
  - apply (proj2 (proj2 (change_contact_outcomes ascii_lower sample_book
                           (lit "bob") (lit "2222222222")
                           (lit "3333333333"))
                    [] sample_bob [ContactRecord.init (lit "Ann")]
                    eq_refl ltac:(constructor) eq_refl)
             [Phone.mk (lit "1111111111")] (Phone.mk (lit "2222222222")) []);
      [reflexivity| |reflexivity].
    repeat constructor; vm_compute; discriminate.
Defined.

Lemma add_birthday_then_show_witness :
  Handlers.show_birthday ascii_lower false [lit "ann"]
    (fst (Commands.add_birthday ascii_lower [lit "ann"; lit "25.12.1999"]
            sample_book))
  = Ok (lit "ann's birthday is on 25.12.1999.").
Proof.
  apply (add_birthday_then_show ascii_lower false sample_book (lit "ann")
           (lit "25.12.1999") (Date.mk 1999 12 25)
           (ContactRecord.init (lit "Ann"))).
  - by split.
  - right. simpl. lia.
  - reflexivity.
Defined.

Lemma add_contact_then_show_phone_witness :
  Commands.show_phone ascii_lower [lit "BOB"]
    (fst (Commands.add_contact ascii_lower [lit "BOB"; lit "3333333333"]
            sample_book))
  = (fst (Commands.add_contact ascii_lower [lit "BOB"; lit "3333333333"]
            sample_book),
     Ok (lit "BOB's phone(s): 1111111111, 2222222222, 3333333333")).
Proof.
  apply (add_contact_then_show_phone ascii_lower sample_book (lit "BOB")
           (lit "3333333333") []).
  reflexivity.
Defined.

(** Lines typed on 28 December 2024. *)
Lemma main_keeps_phones_valid_witness :
  Forall (λ r, Forall (λ p, Phone.validate (Phone.value p) = true)
                 (ContactRecord.phones r))
    (AddressBook.contacts
       (ending_book
          (snd (Commands.main ascii_lower false sample_book
                  [(Date.mk 2024 12 28, lit "add Eve 12345");
                   (Date.mk 2024 12 28, lit "change bob 1111111111 x");
                   (Date.mk 2024 12 28, lit "close")])))).
Proof.
  apply (main_keeps_phones_valid ascii_lower false sample_book).
  repeat constructor; vm_compute; discriminate.
Defined.

Lemma main_keeps_birthdays_real_witness :
  birthdays_real
    (ending_book
       (snd (Commands.main ascii_lower false sample_book
               [(Date.mk 2024 12 28, lit "add-birthday ann 31.02.2024");
                (Date.mk 2024 12 28, lit "add-birthday ann 29.02.2024");
                (Date.mk 2024 12 28, lit "exit")]))).
Proof.
  apply (main_keeps_birthdays_real ascii_lower false sample_book).
  repeat constructor; intros b [= <-]; reflexivity.
Defined.

Lemma parse_input_blank_witness :
  Commands.parse_input ascii_lower [32; 9; 160] = Raise ValueError
  ∧ Commands.main ascii_lower false sample_book
      [(Date.mk 2024 12 28, lit "  "); (Date.mk 2024 12 28, lit "exit")]
    = ([Commands.greeting], Commands.Uncaught ValueError sample_book).
Proof.
  split.
  - apply (parse_input_blank ascii_lower false [32; 9; 160]).
    repeat constructor.
  - apply (proj2 (proj2 (parse_input_blank ascii_lower false (lit "  ")))).
    repeat constructor.
Defined.

Lemma parse_input_words_witness :
  ∃ w, Text.split (lit "  ADD  Bob 1111111111 ")
       = w :: [lit "Bob"; lit "1111111111"]
       ∧ lit "add" = ascii_lower w.
Proof.
  destruct (parse_input_words ascii_lower (lit "  ADD  Bob 1111111111 ")
              (lit "add") [lit "Bob"; lit "1111111111"] eq_refl)
    as (w & H1 & H2 & _).
  by exists w.
Defined.

Lemma parse_input_join_witness :
  Commands.parse_input ascii_lower (lit "Phone Bob") = Ok (lit "phone", [lit "Bob"]).
Proof.
  apply (parse_input_join ascii_lower (lit "Phone") [lit "Bob"]).
  repeat constructor; discriminate.
Defined.

Lemma dispatch_raises_witness :
  let book :=
    AddressBook.mk
      [ContactRecord.mk (lit "Eve") []
         (Some (Birthday.mk (Date.mk 2000 12 31)))] in
  Commands.dispatch ascii_lower false (Date.mk 9999 12 30) (lit "birthdays")
    [] book
  = (book, Raise OverflowError)
  ∧ 9999 ≤ Date.year (Date.mk 9999 12 30).
Proof.
  intros book. split; [reflexivity|].
  apply (dispatch_raises ascii_lower false (Date.mk 9999 12 30)
           (lit "birthdays") [] book book OverflowError).
  reflexivity.
Defined.

Lemma upcoming_birthdays_order_witness :
  map AddressBook.entry_name
    [AddressBook.mk_entry (lit "Bob") (lit "2025.01.31")]
    `sublist_of` [lit "Bob"; lit "Ann"].
Proof.
  apply (upcoming_birthdays_order false (Date.mk 2025 1 25) sample_book
           [AddressBook.mk_entry (lit "Bob") (lit "2025.01.31")]).
  reflexivity.
Defined.

Lemma upcoming_birthdays_returns_witness :
  ∃ res,
    AddressBook.get_upcoming_birthdays false (Date.mk 2025 1 25) sample_book
    = Ok res.
Proof.
  apply (upcoming_birthdays_returns false (Date.mk 2025 1 25) sample_book).
  - simpl. lia.
  - repeat constructor; intros b [= <-]; reflexivity.
  - repeat constructor; intros b [= <-] [H _]; discriminate H.
Defined.

Lemma upcoming_birthdays_leap_day_raises_witness :
  let ada :=
    ContactRecord.mk (lit "Ada") [] (Some (Birthday.mk (Date.mk 1996 2 29))) in
  AddressBook.get_upcoming_birthdays false (Date.mk 2025 6 1)
    (AddressBook.mk [sample_bob; ada])
  = Raise ValueError.
Proof.
  intros ada.
  apply (upcoming_birthdays_leap_day_raises false (Date.mk 2025 6 1)
           (AddressBook.mk [sample_bob; ada]) ada
           (Birthday.mk (Date.mk 1996 2 29)) []);
    [|reflexivity..| simpl; lia].
  apply list_elem_of_In. right. by left.
Defined.
